(** * dogArm: kinematics, trajectory planning and the controller protocol

    A shallow embedding of three Python classes of the repository:

    - [InverseKinematics]  (software/kinematics/inverse_kinematics.py)
    - [CalligraphyPlanner] (software/calligraphy/path_planner.py)
    - [RobotController]    (software/control/robot_controller.py)

    Python floats and numpy's float64 are IEEE 754 binary64 numbers; they are
    modelled by Rocq's primitive floats, which are the same numbers with the
    same correctly rounded operations.  The power [v ** 2] is not one of
    these operations: it goes through the C library, and [Power] takes it
    as the platform has it.  Python strings are modelled by
    [string] (the wire protocol is ASCII), the status dictionary by a
    [gmap string bool], and the serial line by an explicit world value that
    records every write and sleep of the controller. *)

From Stdlib Require Import ZArith Floats Lia.
From Stdlib Require QArith.
From stdpp Require Import base option list strings gmap.

(** ** Python-level notions shared by the three classes *)

Module Py.

(** The exceptions that the modelled code can raise. *)
Inductive exn : Set :=
| IndexError
| ValueError
| OverflowError.

(** A Python computation either returns a value or raises. *)
Inductive py (A : Type) : Type :=
| Ok (a : A)
| Exc (e : exn).
Arguments Ok {A} a.
Arguments Exc {A} e.

Definition bind {A B : Type} (m : py A) (k : A -> py B) : py B :=
  match m with
  | Ok a => k a
  | Exc e => Exc e
  end.

Declare Scope py_scope.
Delimit Scope py_scope with py.
Notation "'let*' x ':=' m 'in' k" := (bind m (fun x => k))
  (at level 10, x name, m at level 100, k at level 200) : py_scope.
Local Open Scope py_scope.

(** [for a in l: s = body(s, a)], stopping at the first exception. *)
Fixpoint for_each {A S : Type} (body : S -> A -> py S) (l : list A) (s : S) : py S :=
  match l with
  | [] => Ok s
  | a :: l' => bind (body s a) (for_each body l')
  end.

(** [l[i]]: a negative index counts from the end; an index out of range
    raises [IndexError]. *)
Definition index {A : Type} (l : list A) (i : Z) : py A :=
  let k := if (i <? 0)%Z then (Z.of_nat (length l) + i)%Z else i in
  if (k <? 0)%Z then Exc IndexError
  else match l !! Z.to_nat k with
       | Some a => Ok a
       | None => Exc IndexError
       end.

(** *** Floats *)

(** [v ** 2] on a platform that returns the correctly rounded square,
    which is the product [v * v], where that square is finite.  [Power]
    has the operation as any platform computes it. *)
Definition pow2 (v : float) : float := (v * v)%float.

(** [a > b] on floats is [b < a]. *)
Definition gtb (a b : float) : bool := (b <? a)%float.

(** A float is NaN when its specification value is. *)
Definition is_nan (v : float) : Prop := Prim2SF v = S754_nan.

(** [int(np.ceil(q))]: the least integer not below [q].  [int] raises
    [OverflowError] on an infinity and [ValueError] on NaN. *)
Definition int_ceil (q : float) : py Z :=
  match Prim2SF q with
  | S754_zero _ => Ok 0%Z
  | S754_finite s m e =>
      let n := if s then Zneg m else Zpos m in
      Ok (match e with
          | Zneg k => (- ((- n) / 2 ^ Zpos k))%Z
          | _ => (n * 2 ^ e)%Z
          end)
  | S754_infinity _ => Exc OverflowError
  | S754_nan => Exc ValueError
  end.

Definition SF_of_Z (n : Z) : spec_float :=
  match n with
  | Z0 => S754_zero false
  | Zpos p => S754_finite false p 0
  | Zneg p => S754_finite true p 0
  end.

(** [j / n] on Python integers ("true division"): the correctly rounded
    quotient of the two integers. *)
Definition int_true_div (j n : Z) : float :=
  SF2Prim (SFdiv prec emax (SF_of_Z j) (SF_of_Z n)).

(** [range(a, b)] with step 1. *)
Definition range (a b : Z) : list Z := seqZ a (b - a).

(** *** Strings *)

(** [needle in s]. *)
Fixpoint contains (needle s : string) : bool :=
  if String.prefix needle s then true
  else match s with
       | EmptyString => false
       | String _ s' => contains needle s'
       end.

(** [s.split(sep)] for a non-empty separator: the pieces between the
    non-overlapping occurrences of [sep], found from the left.  [skip]
    counts the characters of a matched separator still to be dropped and
    [cur] is the piece being read. *)
Fixpoint split_go (sep : string) (skip : nat) (cur s : string) : list string :=
  match s with
  | EmptyString => [cur]
  | String c s' =>
      match skip with
      | S k => split_go sep k cur s'
      | O =>
          if String.prefix sep s
          then cur :: split_go sep (String.length sep - 1) EmptyString s'
          else split_go sep 0 (cur +:+ String c EmptyString) s'
      end
  end.

Definition split (sep s : string) : list string := split_go sep 0 EmptyString s.

(** [s.lower()] on ASCII text. *)
Definition lower_ascii (c : Ascii.ascii) : Ascii.ascii :=
  let n := Ascii.N_of_ascii c in
  if ((65 <=? n) && (n <=? 90))%N then Ascii.ascii_of_N (n + 32) else c.

Fixpoint lower (s : string) : string :=
  match s with
  | EmptyString => EmptyString
  | String c s' => String (lower_ascii c) (lower s')
  end.

(** The ASCII characters that [str.strip()] removes. *)
Definition is_whitespace (c : Ascii.ascii) : bool :=
  let n := Ascii.N_of_ascii c in
  (((9 <=? n) && (n <=? 13)) || ((28 <=? n) && (n <=? 32)))%N.

Fixpoint lstrip (s : string) : string :=
  match s with
  | EmptyString => EmptyString
  | String c s' => if is_whitespace c then lstrip s' else s
  end.

(** [s.strip()]. *)
Definition strip (s : string) : string :=
  String.rev (lstrip (String.rev (lstrip s))).

(** [response and marker in response], as a condition: [None] and ['']
    are false. *)
Definition has_marker (marker : string) (r : option string) : bool :=
  match r with
  | Some s => negb (String.eqb s EmptyString) && contains marker s
  | None => false
  end.

End Py.

(** ** software/kinematics/inverse_kinematics.py *)

Module Kinematics.
Import Py.
Local Open Scope float_scope.

(** The functions of the C library that [solve] calls through numpy. *)
Record Libm : Type := {
  arccos : float -> float;
  arcsin : float -> float;
  arctan2 : float -> float -> float;
  sin : float -> float;
  degrees : float -> float
}.

(** The attributes of an [InverseKinematics] object. *)
Record InverseKinematics : Type := {
  l1 : float;
  l2 : float;
  base_width : float;
  min_x : float;
  max_x : float;
  min_y : float;
  max_y : float
}.

(** [__init__]: the link geometry is given, the workspace limits are fixed. *)
Definition init (link1_length link2_length base_width : float) : InverseKinematics :=
  {| l1 := link1_length;
     l2 := link2_length;
     base_width := base_width;
     min_x := -300;
     max_x := 300;
     min_y := 50;
     max_y := 400 |}.

(** [InverseKinematics()] with the default arguments. *)
Definition default : InverseKinematics := init 200 200 100.

(** [np.sqrt(x**2 + y**2)] with correctly rounded squares. *)
Definition distance (x y : float) : float := sqrt (pow2 x + pow2 y).

Definition max_reach (self : InverseKinematics) : float := l1 self + l2 self.
Definition min_reach (self : InverseKinematics) : float := abs (l1 self - l2 self).

(** [is_reachable] with correctly rounded squares; [PlatformKinematics]
    has it, and [solve], over the squares of the platform. *)
Definition is_reachable (self : InverseKinematics) (x y : float) : bool :=
  if (x <? min_x self) || gtb x (max_x self) then false
  else if (y <? min_y self) || gtb y (max_y self) then false
  else
    let distance := distance x y in
    (min_reach self <=? distance) && (distance <=? max_reach self).

(** *** The reachable region as the specification words it *)

(** The workspace rectangle [[min_x, max_x] x [min_y, max_y]]. *)
Definition in_rectangle (self : InverseKinematics) (x y : float) : Prop :=
  (min_x self <=? x) = true /\ (x <=? max_x self) = true /\
  (min_y self <=? y) = true /\ (y <=? max_y self) = true.

(** *** Solvers and targets used in the examples *)

(** A stand-in for the C library; the statements here hold for every one. *)
Definition identity_libm : Libm :=
  {| arccos := fun v => v; arcsin := fun v => v; arctan2 := fun v _ => v;
     sin := fun v => v; degrees := fun v => v |}.

(** An arm with links of 50.3 mm and 150 mm, and the target straight ahead
    at the full reach of 200.3 mm (the floats nearest to these decimals). *)
Definition short_long_arm : InverseKinematics := init 0x1.9266666666666p+5 150 100.
Definition full_reach : float := 0x1.909999999999ap+7.

End Kinematics.

(** ** software/calligraphy/path_planner.py *)

Module Planner.
Import Py.
Local Open Scope float_scope.
Local Open Scope py_scope.

(** [PathPoint] *)
Record PathPoint : Type := {
  x : float;
  y : float;
  pen_down : bool
}.

(** The attributes of a [CalligraphyPlanner] object. *)
Record CalligraphyPlanner : Type := {
  workspace_width : float;
  workspace_height : float;
  current_path : list PathPoint
}.

(** [__init__] *)
Definition init (workspace_width workspace_height : float) : CalligraphyPlanner :=
  {| workspace_width := workspace_width;
     workspace_height := workspace_height;
     current_path := [] |}.

(** A stroke is a list of [(x, y)] pairs. *)
Definition Stroke : Type := list (float * float).

(** The body of [for x, y in stroke]: the loop carries the path and the
    variables [scaled_x], [scaled_y], which are read after the loop. *)
Definition pen_down_vertex (scale offset_x offset_y : float)
    (st : list PathPoint * float * float) (v : float * float)
  : list PathPoint * float * float :=
  let '(path, _, _) := st in
  let '(x, y) := v in
  let scaled_x := x * scale + offset_x in
  let scaled_y := y * scale + offset_y in
  (path ++ [{| x := scaled_x; y := scaled_y; pen_down := true |}], scaled_x, scaled_y).

(** The body of [for stroke in strokes]. *)
Definition plan_stroke (scale offset_x offset_y : float)
    (path : list PathPoint) (stroke : Stroke) : list PathPoint :=
  match stroke with
  | [] => path
  | (start_x, start_y) :: _ =>
      let scaled_x := start_x * scale + offset_x in
      let scaled_y := start_y * scale + offset_y in
      let path := path ++ [{| x := scaled_x; y := scaled_y; pen_down := false |}] in
      let '(path, scaled_x, scaled_y) :=
        fold_left (pen_down_vertex scale offset_x offset_y) stroke (path, scaled_x, scaled_y) in
      path ++ [{| x := scaled_x; y := scaled_y; pen_down := false |}]
  end.

(** [plan_path]: the new planner object (its [current_path] is assigned)
    and the returned path. *)
Definition plan_path (self : CalligraphyPlanner) (strokes : list Stroke)
    (scale offset_x offset_y : float) : CalligraphyPlanner * list PathPoint :=
  let path := fold_left (plan_stroke scale offset_x offset_y) strokes [] in
  ({| workspace_width := workspace_width self;
      workspace_height := workspace_height self;
      current_path := path |}, path).

(** The point appended by [interpolate_path] for the index [j] of a segment
    cut into [num_steps] steps. *)
Definition interp_point (current : PathPoint) (dx dy : float) (num_steps j : Z)
  : PathPoint :=
  let t := int_true_div j num_steps in
  {| x := x current + t * dx; y := y current + t * dy; pen_down := true |}.

(** The body of [for i in range(len(path) - 1)], with correctly rounded
    squares; [PlatformPlanner] has the loop over the squares of the
    platform. *)
Definition interpolate_segment (path : list PathPoint) (step_size : float)
    (interpolated : list PathPoint) (i : Z) : py (list PathPoint) :=
  let* current := index path i in
  let* next_point := index path (i + 1) in
  let interpolated := interpolated ++ [current] in
  if pen_down current && pen_down next_point then
    let dx := x next_point - x current in
    let dy := y next_point - y current in
    let distance := sqrt (pow2 dx + pow2 dy) in
    if gtb distance step_size then
      let* num_steps := int_ceil (distance / step_size) in
      Ok (fold_left (fun acc j => acc ++ [interp_point current dx dy num_steps j])
                    (range 1 num_steps) interpolated)
    else Ok interpolated
  else Ok interpolated.

(** [interpolate_path] *)
Definition interpolate_path (path : list PathPoint) (step_size : float)
  : py (list PathPoint) :=
  let* interpolated :=
    for_each (interpolate_segment path step_size)
             (range 0 (Z.of_nat (length path) - 1)) [] in
  let* last_point := index path (-1) in
  Ok (interpolated ++ [last_point]).

(** *** The planner as the specification words it *)

(** One stroke: a pen-up point at the first vertex, a pen-down point per
    vertex, a pen-up point at the final vertex; nothing for an empty stroke. *)
Definition scaled (scale offset_x offset_y : float) (down : bool) (v : float * float)
  : PathPoint :=
  {| x := fst v * scale + offset_x; y := snd v * scale + offset_y; pen_down := down |}.

Definition stroke_points (scale offset_x offset_y : float) (stroke : Stroke)
  : list PathPoint :=
  match stroke with
  | [] => []
  | first :: _ =>
      scaled scale offset_x offset_y false first
        :: map (scaled scale offset_x offset_y true) stroke
        ++ [scaled scale offset_x offset_y false (List.last stroke first)]
  end.

Definition plan_path_spec (strokes : list Stroke) (scale offset_x offset_y : float)
  : list PathPoint :=
  concat (map (stroke_points scale offset_x offset_y) strokes).

(** Euclidean distance of two points, computed as [interpolate_path] does
    with correctly rounded squares. *)
Definition point_distance (p q : PathPoint) : float :=
  sqrt (pow2 (x q - x p) + pow2 (y q - y p)).

(** The number of steps of a segment: [Some (Ok n)] with
    [n = ceil(distance / step_size)] when both ends are pen-down and farther
    apart than [step_size] (an exception when the quotient is not finite),
    [None] when the segment is passed through. *)
Definition num_steps_of (step_size : float) (p q : PathPoint) : option (py Z) :=
  if pen_down p && pen_down q && gtb (point_distance p q) step_size
  then Some (int_ceil (point_distance p q / step_size))
  else None.

(** The intermediate points of a segment cut into [n] steps: parameters
    [t = j/n] for [j = 1 .. n-1]. *)
Definition intermediate (p q : PathPoint) (n : Z) : list PathPoint :=
  map (fun j => {| x := x p + int_true_div j n * (x q - x p);
                   y := y p + int_true_div j n * (y q - y p);
                   pen_down := true |})
      (seqZ 1 (n - 1)).

(** What is inserted between two adjacent points [p] and [q]. *)
Definition between (step_size : float) (p q : PathPoint) : py (list PathPoint) :=
  match num_steps_of step_size p q with
  | Some n => let* n := n in Ok (intermediate p q n)
  | None => Ok []
  end.

(** The interpolation of a path: every point, followed by what is inserted
    between it and the next point. *)
Fixpoint interpolate_spec (step_size : float) (path : list PathPoint)
  : py (list PathPoint) :=
  match path with
  | [] => Ok []
  | p :: rest =>
      match rest with
      | [] => Ok [p]
      | q :: _ =>
          let* inserted := between step_size p q in
          let* tail := interpolate_spec step_size rest in
          Ok (p :: inserted ++ tail)
      end
  end.

(** The pen-down segment from [(0, 0)] to [(55, 0)]. *)
Definition segment_0_55 : list PathPoint :=
  [ {| x := 0; y := 0; pen_down := true |};
    {| x := 55; y := 0; pen_down := true |} ].


End Planner.

(** ** software/control/robot_controller.py *)

Module Control.
Import Py.
Local Open Scope py_scope.

(** What a call of the controller can end in: a returned value, an
    exception that nothing catches, or a wait loop still running when the
    fuel given to it is used up. *)
Inductive outcome (A : Type) : Type :=
| Returns (a : A)
| Raises (e : exn)
| OutOfFuel.
Arguments Returns {A} a.
Arguments Raises {A} e.
Arguments OutOfFuel {A}.

(** What the controller does to the outside: it opens and closes the port,
    writes bytes to it and sleeps. *)
Inductive event : Type :=
| Open
| Close
| Write (data : string)
| Sleep (seconds : float).

(** The outside of the controller.  [port_available] says whether
    [serial.Serial(...)] succeeds.  [rx] holds what the coming calls of
    [readline().decode()] give: [Some line], or [None] when the call raises;
    when [rx] is empty the read times out and gives the empty line.
    [trace] is what the controller has done so far, oldest first. *)
Record World : Type := {
  port_available : bool;
  rx : list (option string);
  trace : list event
}.

Definition log (e : event) (w : World) : World :=
  {| port_available := port_available w; rx := rx w; trace := trace w ++ [e] |}.

Definition set_rx (rx : list (option string)) (w : World) : World :=
  {| port_available := port_available w; rx := rx; trace := trace w |}.

(** The strings that the controller has written. *)
Definition writes (w : World) : list string :=
  omap (fun e => match e with Write data => Some data | _ => None end) (trace w).

(** A [serial.Serial] object. *)
Record Serial : Type := { is_open : bool }.

(** The attributes of a [RobotController] object. *)
Record RobotController : Type := {
  port : string;
  baudrate : Z;
  timeout : float;
  serial : option Serial;
  is_connected : bool;
  is_homed : bool
}.

(** [__init__] *)
Definition init (port : string) (baudrate : Z) (timeout : float) : RobotController :=
  {| port := port; baudrate := baudrate; timeout := timeout;
     serial := None; is_connected := false; is_homed := false |}.

(** [connect] *)
Definition connect (self : RobotController) (w : World) : bool * RobotController * World :=
  if port_available w then
    (true,
     {| port := port self; baudrate := baudrate self; timeout := timeout self;
        serial := Some {| is_open := true |};
        is_connected := true;
        is_homed := is_homed self |},
     log (Sleep 2) (log Open w))
  else (false, self, w).

(** [disconnect] *)
Definition disconnect (self : RobotController) (w : World) : RobotController * World :=
  match serial self with
  | Some s =>
      if is_open s then
        ({| port := port self; baudrate := baudrate self; timeout := timeout self;
            serial := Some {| is_open := false |};
            is_connected := false;
            is_homed := is_homed self |},
         log Close w)
      else (self, w)
  | None => (self, w)
  end.

(** The line terminator ['\n'] of a command. *)
Definition newline : string := String (Ascii.ascii_of_N 10) EmptyString.

(** [send_command].  Writing to a missing or closed port raises inside the
    [try] and gives [None], as a failing read does. *)
Definition send_command (self : RobotController) (command : string) (w : World)
  : option string * World :=
  if negb (is_connected self) then (None, w)
  else
    match serial self with
    | Some s =>
        if is_open s then
          let w := log (Write (command +:+ newline)) w in
          match rx w with
          | [] => (Some (strip ""), w)
          | Some line :: rest => (Some (strip line), set_rx rest w)
          | None :: rest => (None, set_rx rest w)
          end
        else (None, w)
    | None => (None, w)
    end.

Definition set_homed (self : RobotController) : RobotController :=
  {| port := port self; baudrate := baudrate self; timeout := timeout self;
     serial := serial self; is_connected := is_connected self; is_homed := true |}.

(** [home] *)
Definition home (self : RobotController) (w : World) : bool * RobotController * World :=
  let '(response, w) := send_command self "HOME" w in
  if has_marker "OK" response then (true, set_homed self, w)
  else (false, self, w).

(** The status dictionary. *)
Abbreviation Status := (gmap string bool).

(** The body of [for item in status_str.split(',')]. *)
Definition parse_status_item (status : Status) (item : string) : py Status :=
  match split ":" item with
  | [key; value] => Ok (<[lower key := String.eqb value "1"]> status)
  | _ => Exc ValueError
  end.

(** What [get_status] makes of the response of [send_command]. *)
Definition parse_status (response : option string) : py (option Status) :=
  match response with
  | Some r =>
      if has_marker "STATUS:" response then
        let* status_str := index (split "STATUS:" r) 1 in
        let* status := for_each parse_status_item (split "," status_str) ∅ in
        Ok (Some status)
      else Ok None
  | None => Ok None
  end.

(** [get_status] *)
Definition get_status (self : RobotController) (w : World) : py (option Status) * World :=
  let '(response, w) := send_command self "STATUS" w in
  (parse_status response, w).

(** [status and not status.get('moving', False)] *)
Definition not_moving (status : option Status) : bool :=
  match status with
  | Some st => bool_decide (st ≠ ∅) && negb (default false (st !! "moving"))
  | None => false
  end.

(** The argument of [time.sleep(0.1)]: the float nearest to one tenth. *)
Definition poll_interval : float := 0x1.999999999999ap-4%float.

(** The loop [while True] of [move_to], run for at most [fuel] rounds. *)
Fixpoint wait_until_idle (fuel : nat) (self : RobotController) (w : World)
  : outcome bool * World :=
  match fuel with
  | O => (OutOfFuel, w)
  | S fuel =>
      match get_status self w with
      | (Exc e, w) => (Raises e, w)
      | (Ok status, w) =>
          if not_moving status then (Returns true, w)
          else wait_until_idle fuel self (log (Sleep poll_interval) w)
      end
  end.

Section Builtins.

(** The text that an f-string gives for a float, and the builtin [float]
    on a string ([None] when it raises [ValueError]). *)
Variable format_float : float -> string.
Variable parse_float : string -> option float.

(** [f"MOVE:{x},{y},{z}"] *)
Definition move_command (x y z : float) : string :=
  "MOVE:" +:+ format_float x +:+ "," +:+ format_float y +:+ "," +:+ format_float z.

(** [move_to]; the controller object is not assigned to. *)
Definition move_to (fuel : nat) (self : RobotController) (x y z : float) (w : World)
  : outcome bool * World :=
  if negb (is_homed self) then (Returns false, w)
  else
    let command := move_command x y z in
    let '(response, w) := send_command self command w in
    if has_marker "OK" response then wait_until_idle fuel self w
    else (Returns false, w).

(** What [get_position] makes of the response of [send_command]. *)
Definition parse_position (response : option string) : py (option (list float)) :=
  match response with
  | Some r =>
      if has_marker "POS:" response then
        let* pos_str := index (split "POS:" r) 1 in
        let* coords :=
          for_each (fun coords c =>
                      match parse_float c with
                      | Some v => Ok (coords ++ [v])
                      | None => Exc ValueError
                      end) (split "," pos_str) [] in
        Ok (Some coords)
      else Ok None
  | None => Ok None
  end.

(** [get_position] *)
Definition get_position (self : RobotController) (w : World)
  : py (option (list float)) * World :=
  let '(response, w) := send_command self "POS" w in
  (parse_position response, w).

End Builtins.

(** *** Notions used to state the properties of the controller *)

(** The port is open and the controller knows it. *)
Definition connected (self : RobotController) : Prop :=
  is_connected self = true /\ serial self = Some {| is_open := true |}.

(** The line written by [send_command("STATUS")]. *)
Definition status_line : string := "STATUS" +:+ newline.

(** What [get_status] returns when the device answers a poll with [entry]
    (a line, or [None] for a failing read). *)
Definition status_of (entry : option string) : py (option Status) :=
  parse_status (option_map strip entry).

(** The answer parses to a status that reports [moving] as [b]. *)
Definition reports_moving (entry : option string) (b : bool) : Prop :=
  exists st : Status, status_of entry = Ok (Some st) /\ st !! "moving" = Some b.

(** The answer parses to a status that has no key [moving]. *)
Definition lacks_moving (entry : option string) : Prop :=
  exists st : Status, status_of entry = Ok (Some st) /\ st !! "moving" = None.

(** An answer after which the wait loop polls again: no status, or a
    status that reports [moving] as true. *)
Definition polls_on (entry : option string) : Prop :=
  status_of entry = Ok None \/ reports_moving entry true.

(** What [k] unsuccessful polls leave in the trace: each writes the STATUS
    command and is followed by one sleep of the poll interval. *)
Definition poll_trace (k : nat) : list event :=
  concat (replicate k [Write status_line; Sleep poll_interval]).

(** The world after a wait loop that started in [w], polled [k] times in
    vain and once with success, and left [rest] unread. *)
Definition after_polls (w : World) (k : nat) (rest : list (option string)) : World :=
  {| port_available := port_available w;
     rx := rest;
     trace := trace w ++ poll_trace k ++ [Write status_line] |}.

(** *** A session: connect, home, disconnect, connect again, move *)

(** A stand-in for the formatting of floats; the statements below hold for
    every formatting. *)
Definition format_stub (v : float) : string := "0.0".

Definition fresh_controller : RobotController := init "/dev/ttyUSB0" 115200 1.

(** A device that answers [OK] to HOME and to MOVE and then reports that
    it is idle. *)
Definition obliging_device : World :=
  {| port_available := true;
     rx := [Some "OK"; Some "OK"; Some "STATUS:moving:0,homed:0"];
     trace := [] |}.

(** A controller that is connected and homed. *)
Definition homed_controller : RobotController :=
  {| port := "/dev/ttyUSB0"; baudrate := 115200; timeout := 1;
     serial := Some {| is_open := true |};
     is_connected := true; is_homed := true |}.

(** A device that accepts a MOVE, reports that it moves, fails to answer
    once, reports that it is idle, and has one more line to say. *)
Definition moving_device : World :=
  {| port_available := true;
     rx := [Some "OK"; Some "STATUS:moving:1,homed:1"; None;
            Some "STATUS:moving:0,homed:1"; Some "unread"];
     trace := [] |}.

(** A device that refuses a MOVE. *)
Definition refusing_device : World :=
  {| port_available := true; rx := [Some "ERR"; Some "unread"]; trace := [] |}.

(** A device that accepts a MOVE and then reports only that it is homed. *)
Definition terse_device : World :=
  {| port_available := true;
     rx := [Some "OK"; Some "STATUS:homed:1"; Some "unread"];
     trace := [] |}.

(** A device that answers a status query with a flag that has no value. *)
Definition garbling_device : World :=
  {| port_available := true; rx := [Some "STATUS:moving"]; trace := [] |}.

Definition move_after_reconnect (fuel : nat) : outcome bool * World :=
  let '(_, c, w) := connect fresh_controller obliging_device in
  let '(_, c, w) := home c w in
  let '(c, w) := disconnect c w in
  let '(_, c, w) := connect c w in
  move_to format_stub fuel c 100 200 10 w.

End Control.

(** ** robot_controller.py: the remaining commands and the sessions they make *)

Module Commands.
Import Py Control.

(** The values that the pen and speed commands return: their result is
    [response and "OK" in response], which is the response itself when that
    is [None] or empty, and a boolean otherwise. *)
Inductive value : Type :=
| VNone
| VStr (s : string)
| VBool (b : bool).

(** [response and marker in response], as a value. *)
Definition and_contains (marker : string) (response : option string) : value :=
  match response with
  | None => VNone
  | Some s => if String.eqb s EmptyString then VStr s else VBool (contains marker s)
  end.

(** The truth value of such a result. *)
Definition truth (v : value) : bool :=
  match v with
  | VNone => false
  | VStr s => negb (String.eqb s EmptyString)
  | VBool b => b
  end.

(** [pen_up] *)
Definition pen_up (self : RobotController) (w : World) : value * World :=
  let '(response, w) := send_command self "PEN:UP" w in
  (and_contains "OK" response, w).

(** [pen_down] *)
Definition pen_down (self : RobotController) (w : World) : value * World :=
  let '(response, w) := send_command self "PEN:DOWN" w in
  (and_contains "OK" response, w).

(** [emergency_stop]; it returns nothing. *)
Definition emergency_stop (self : RobotController) (w : World) : World :=
  snd (send_command self "STOP" w).

(** [__enter__]: the result of [connect] is dropped. *)
Definition __enter__ (self : RobotController) (w : World) : RobotController * World :=
  let '(_, self, w) := connect self w in (self, w).

(** [__exit__] *)
Definition __exit__ (self : RobotController) (w : World) : RobotController * World :=
  disconnect self w.

(** A call of a method of the controller. *)
Inductive call : Type :=
| Connect
| Disconnect
| Home
| MoveTo (x y z : float)
| PenUp
| PenDown
| SetSpeed (speed : float)
| GetStatus
| GetPosition
| EmergencyStop.

Section Builtins.

Variable format_float : float -> string.
Variable parse_float : string -> option float.

(** [set_speed] *)
Definition set_speed (self : RobotController) (speed : float) (w : World)
  : value * World :=
  let command := "SPEED:" +:+ format_float speed in
  let '(response, w) := send_command self command w in
  (and_contains "OK" response, w).

(** The controller and the world after a call, whatever the call returned;
    a call that raises or whose wait loop is cut off leaves the state in
    which it stopped. *)
Definition step (fuel : nat) (c : call) (st : RobotController * World)
  : RobotController * World :=
  let '(self, w) := st in
  match c with
  | Connect => let '(_, self, w) := connect self w in (self, w)
  | Disconnect => disconnect self w
  | Home => let '(_, self, w) := home self w in (self, w)
  | MoveTo x y z => (self, snd (move_to format_float fuel self x y z w))
  | PenUp => (self, snd (pen_up self w))
  | PenDown => (self, snd (pen_down self w))
  | SetSpeed speed => (self, snd (set_speed self speed w))
  | GetStatus => (self, snd (get_status self w))
  | GetPosition => (self, snd (get_position parse_float self w))
  | EmergencyStop => (self, emergency_stop self w)
  end.

(** A sequence of calls, one after the other. *)
Definition run (fuel : nat) (calls : list call) (st : RobotController * World)
  : RobotController * World :=
  fold_left (fun st c => step fuel c st) calls st.

(** [with RobotController(port) as robot: ...] where the body makes the
    given calls on [robot]. *)
Definition with_controller (fuel : nat) (port : string) (body : list call) (w : World)
  : RobotController * World :=
  let '(robot, w) := __enter__ (init port 115200 1) w in
  let '(robot, w) := run fuel body (robot, w) in
  __exit__ robot w.

End Builtins.

(** A stand-in for the builtin [float]; the statements below hold for every
    parser. *)
Definition parse_stub (c : string) : option float := None.

(** A parser that knows the one-digit numbers [1] and [2]. *)
Definition digit_parser (c : string) : option float :=
  if String.eqb c "1" then Some 1%float
  else if String.eqb c "2" then Some 2%float
  else None.

(** Calls that a caller might make after a disconnection. *)
Definition calls_after_disconnect : list call :=
  [Home; MoveTo 100 200 10; PenUp; GetStatus; GetPosition; EmergencyStop; Disconnect].

(** Calls that disconnect, connect again and go on. *)
Definition calls_with_reconnect : list call :=
  [Disconnect; Connect; EmergencyStop; Home; MoveTo 100 200 10].

(** The fields of the status that a response carries, and of its position. *)
Definition status_items (r : string) : list string :=
  split "," (nth 1 (split "STATUS:" r) EmptyString).

Definition position_fields (r : string) : list string :=
  split "," (nth 1 (split "POS:" r) EmptyString).

(** An item of the form [key:value]: splitting it on [':'] gives two pieces. *)
Definition key_value (item : string) : Prop :=
  exists key value : string, split ":" item = [key; value].

(** What every state reached from [__init__] satisfies: a controller that
    believes it is connected has an open port, and one that is homed has had
    a port. *)
Definition consistent (self : RobotController) : Prop :=
  (is_connected self = true -> serial self = Some {| is_open := true |}) /\
  (is_homed self = true -> serial self <> None).

(** The controller is not connected and holds no open port. *)
Definition offline (self : RobotController) : Prop :=
  is_connected self = false /\ serial self <> Some {| is_open := true |}.

(** The line that a command writes. *)
Definition line (command : string) : string := command +:+ newline.

(** The world [w'] comes after [w]: the trace has grown, the answers still
    pending are what is left of those pending before, and no more answers
    were taken than lines were written. *)
Definition follows (w w' : World) : Prop :=
  port_available w' = port_available w /\
  exists (taken : list (option string)) (added : list event),
    rx w = taken ++ rx w' /\
    trace w' = trace w ++ added /\
    length taken <=
      length (omap (fun e => match e with Write data => Some data | _ => None end) added).

(** A device that accepts a MOVE and then says nothing more. *)
Definition device_gone_silent : World :=
  {| port_available := true; rx := [Some "OK"]; trace := [] |}.

End Commands.

(** ** path_planner.py: bounds and the built-in characters *)

Module Characters.
Import Py Planner.
Local Open Scope float_scope.
Local Open Scope py_scope.

(** [min(l)] on floats: the first element is kept until a later one
    compares less; an empty list raises [ValueError]. *)
Definition py_min (l : list float) : py float :=
  match l with
  | [] => Exc ValueError
  | a :: l' => Ok (fold_left (fun m v => if v <? m then v else m) l' a)
  end.

(** [max(l)] on floats: the first element is kept until a later one
    compares greater. *)
Definition py_max (l : list float) : py float :=
  match l with
  | [] => Exc ValueError
  | a :: l' => Ok (fold_left (fun m v => if gtb v m then v else m) l' a)
  end.

(** [get_path_bounds]: [(min_x, max_x, min_y, max_y)]. *)
Definition get_path_bounds (path : list PathPoint) : py (float * float * float * float) :=
  match path with
  | [] => Ok (0, 0, 0, 0)
  | _ :: _ =>
      let x_coords := map x path in
      let y_coords := map y path in
      let* a := py_min x_coords in
      let* b := py_max x_coords in
      let* c := py_min y_coords in
      let* d := py_max y_coords in
      Ok (a, b, c, d)
  end.

(** The characters are compared as their UTF-8 encodings. *)
Definition char_one : string := "一".
Definition char_ten : string := "十".
Definition char_tree : string := "木".

(** [create_simple_character]; an unknown character gives the empty path
    without a call of [plan_path]. *)
Definition create_simple_character (self : CalligraphyPlanner) (character : string)
  : CalligraphyPlanner * list PathPoint :=
  if String.eqb character char_one then
    plan_path self [[(50, 100); (150, 100)]] 1 0 200
  else if String.eqb character char_ten then
    plan_path self [[(100, 50); (100, 150)];
                    [(50, 100); (150, 100)]] 1 0 200
  else if String.eqb character char_tree then
    plan_path self [[(100, 50); (100, 150)];
                    [(50, 100); (150, 100)];
                    [(60, 120); (90, 150)];
                    [(140, 120); (110, 150)]] 1 0 200
  else (self, []).

(** *** Words for the properties *)

(** A stroke with at least one vertex. *)
Definition is_drawn (stroke : Stroke) : bool :=
  match stroke with
  | [] => false
  | _ :: _ => true
  end.

(** The planned path of one horizontal stroke of 100 mm, and of a stroke
    with a single vertex. *)
Definition line_path : list PathPoint :=
  plan_path_spec [[(50, 100); (150, 100)]] 1 0 200.


(** A point that the default solver of the kinematics accepts. *)
Definition reachable (p : PathPoint) : Prop :=
  Kinematics.is_reachable Kinematics.default (x p) (y p) = true.

(** A pen-up point. *)
Definition pen_is_up (p : PathPoint) : bool := negb (pen_down p).

(** A float that is a number. *)
Definition number (v : float) : Prop := ~ is_nan v.

(** The concatenation of computations of lists, stopping at the first that
    raises. *)
Fixpoint concat_all {A : Type} (l : list (py (list A))) : py (list A) :=
  match l with
  | [] => Ok []
  | m :: l' =>
      let* a := m in
      let* b := concat_all l' in
      Ok (a ++ b)
  end.

End Characters.

(** ** examples/write_character.py *)

Module WriteCharacter.
Import Py Planner Control Commands Characters.
Local Open Scope float_scope.

Section Builtins.

Variable format_float : float -> string.

(** The body of [for i, point in enumerate(path)]: the pen is set, then the
    arm is sent to the point; what the two calls return is dropped. *)
Definition draw_point (fuel : nat) (robot : RobotController) (point : PathPoint)
    (w : World) : outcome unit * World :=
  let w := if Planner.pen_down point then snd (Commands.pen_down robot w)
           else snd (Commands.pen_up robot w) in
  match move_to format_float fuel robot (x point) (y point)
                (if Planner.pen_down point then 5 else 10) w with
  | (Returns _, w) => (Returns tt, w)
  | (Raises e, w) => (Raises e, w)
  | (OutOfFuel, w) => (OutOfFuel, w)
  end.

(** The loop over the path. *)
Fixpoint draw_path (fuel : nat) (robot : RobotController) (path : list PathPoint)
    (w : World) : outcome unit * World :=
  match path with
  | [] => (Returns tt, w)
  | point :: path' =>
      match draw_point fuel robot point w with
      | (Returns _, w) => draw_path fuel robot path' w
      | r => r
      end
  end.

(** [write_character]; printing is left out. *)
Definition write_character (fuel : nat) (robot : RobotController)
    (planner : CalligraphyPlanner) (character : string) (w : World)
  : outcome unit * CalligraphyPlanner * World :=
  let '(planner, path) := create_simple_character planner character in
  match path with
  | [] => (Returns tt, planner, w)
  | _ :: _ =>
      match interpolate_path path 5 with
      | Exc e => (Raises e, planner, w)
      | Ok path =>
          match get_path_bounds path with
          | Exc e => (Raises e, planner, w)
          | Ok bounds =>
              match draw_path fuel robot path w with
              | (Returns _, w) => (Returns tt, planner, snd (Commands.pen_up robot w))
              | (r, w) => (r, planner, w)
              end
          end
      end
  end.

End Builtins.

(** A line written by [pen_up] or [pen_down]. *)
Definition pen_line (s : string) : Prop :=
  s = line "PEN:UP" \/ s = line "PEN:DOWN".

End WriteCharacter.

(** ** Squares as the platform computes them *)

Module Power.
Import Py.
Local Open Scope float_scope.

(** [v ** 2] is not the product [v * v].  On a Python float it is the C
    library's [pow(v, 2.0)], which need not be the correctly rounded
    square, and Python raises [OverflowError] when the result is out of
    range.  On a numpy float64 it is numpy's power, which returns an
    infinity where Python raises.  Both operations are taken as the
    platform has them. *)
Record Powers : Type := {
  float_pow2 : float -> py float;
  float64_pow2 : float -> float
}.

(** A platform on which both squares are correctly rounded.  Python raises
    when the square of a finite float is infinite; the square of an
    infinity is an infinity and the square of NaN is NaN.  The examples
    below use it at inputs whose squares every platform returns so: they
    are exact, or were compared with Python's. *)
Definition correctly_rounded : Powers :=
  {| float_pow2 := fun v =>
       if PrimFloat.is_infinity (v * v) && negb (PrimFloat.is_infinity v)
       then Exc OverflowError
       else Ok (v * v);
     float64_pow2 := fun v => v * v |}.

(** A platform whose float power returns the product and never raises:
    the squares of [Py.pow2]. *)
Definition returns_products (P : Powers) : Prop :=
  forall v : float, float_pow2 P v = Ok (pow2 v).

End Power.

(** ** Exact values *)

Module Exact.
Import QArith.
Local Open Scope Q_scope.

(** The value of a float that is a number, as a rational. *)
Definition exact (v : float) : option Q :=
  match Prim2SF v with
  | S754_zero _ => Some 0
  | S754_finite s m e =>
      let n := if s then Zneg m else Zpos m in
      Some (match e with
            | Zneg k => Qmake n (2 ^ k)%positive
            | _ => inject_Z (n * 2 ^ e)
            end)
  | _ => None
  end.

(** [|lo| <= sqrt(a^2 + b^2) <= hi] on rationals; the interval is empty
    when [hi < 0]. *)
Definition norm_within (lo hi a b : Q) : bool :=
  Qle_bool (lo * lo) (a * a + b * b) &&
  Qle_bool (a * a + b * b) (hi * hi) && Qle_bool 0 hi.


End Exact.

(** ** inverse_kinematics.py over the platform's squares *)

Module PlatformKinematics.
Import Py Power Kinematics.
Local Open Scope float_scope.
Local Open Scope py_scope.

Section Platform.

Variable P : Powers.

(** [np.sqrt(x**2 + y**2)]: the two squares are Python's, the sum and the
    root are correctly rounded. *)
Definition distance (x y : float) : py float :=
  let* x2 := float_pow2 P x in
  let* y2 := float_pow2 P y in
  Ok (sqrt (x2 + y2)).

(** [is_reachable] *)
Definition is_reachable (self : InverseKinematics) (x y : float) : py bool :=
  if (x <? min_x self) || gtb x (max_x self) then Ok false
  else if (y <? min_y self) || gtb y (max_y self) then Ok false
  else
    let* distance := distance x y in
    Ok ((min_reach self <=? distance) && (distance <=? max_reach self)).

(** The law-of-cosines value of [solve]: the squares of the link lengths
    are Python's, the square of the distance is numpy's. *)
Definition cos_elbow (self : InverseKinematics) (distance : float) : py float :=
  let* a := float_pow2 P (l1 self) in
  let* b := float_pow2 P (l2 self) in
  Ok ((a + b - float64_pow2 P distance) / (2 * l1 self * l2 self)).

(** The joint angles that [solve] computes from the distance and the
    law-of-cosines value. *)
Definition angles (M : Libm) (self : InverseKinematics) (x y distance c : float)
  : float * float :=
  let elbow_angle := arccos M c in
  let base_angle := arctan2 M y x in
  let angle2 := arcsin M ((l2 self * sin M elbow_angle) / distance) in
  (degrees M (base_angle - angle2), degrees M (base_angle + angle2)).

(** [solve]; [None] is Python's [None]. *)
Definition solve (M : Libm) (self : InverseKinematics) (x y : float)
  : py (option (float * float)) :=
  let* reachable := is_reachable self x y in
  if negb reachable then Ok None
  else
    let* distance := distance x y in
    if gtb distance (max_reach self) || (distance <? min_reach self) then Ok None
    else
      let* cos_elbow := cos_elbow self distance in
      if (cos_elbow <? -1) || gtb cos_elbow 1 then Ok None
      else Ok (Some (angles M self x y distance cos_elbow)).

End Platform.

(** *** The regions *)

(** The test of the rectangle as the code makes it: some coordinate is
    below its lower or above its upper limit. *)
Definition outside_rectangle (self : InverseKinematics) (x y : float) : bool :=
  (x <? min_x self) || gtb x (max_x self) || (y <? min_y self) || gtb y (max_y self).

(** The test of the annulus as the code makes it, on a computed distance. *)
Definition in_computed_annulus (self : InverseKinematics) (distance : float) : bool :=
  (min_reach self <=? distance) && (distance <=? max_reach self).

(** The annulus [|l1 - l2| <= sqrt(x^2 + y^2) <= l1 + l2] in exact
    arithmetic, for numbers. *)
Definition in_annulus (self : InverseKinematics) (x y : float) : bool :=
  match Exact.exact (l1 self), Exact.exact (l2 self), Exact.exact x, Exact.exact y with
  | Some a, Some b, Some qx, Some qy =>
      Exact.norm_within (QArith_base.Qminus a b) (QArith_base.Qplus a b) qx qy
  | _, _, _, _ => false
  end.

(** A target a little to the right of the point straight ahead at the full
    reach of the default solver: [(2^-20, 400)]. *)
Definition beside_full_reach : float * float := (0x1p-20, 400).

End PlatformKinematics.

(** ** [interpolate_path] over the platform's squares *)

Module PlatformPlanner.
Import Py Power Planner.
Local Open Scope float_scope.
Local Open Scope py_scope.

Section Platform.

Variable P : Powers.

(** The body of [for i in range(len(path) - 1)]. *)
Definition interpolate_segment (path : list PathPoint) (step_size : float)
    (interpolated : list PathPoint) (i : Z) : py (list PathPoint) :=
  let* current := index path i in
  let* next_point := index path (i + 1) in
  let interpolated := interpolated ++ [current] in
  if pen_down current && pen_down next_point then
    let dx := x next_point - x current in
    let dy := y next_point - y current in
    let* dx2 := float_pow2 P dx in
    let* dy2 := float_pow2 P dy in
    let distance := sqrt (dx2 + dy2) in
    if gtb distance step_size then
      let* num_steps := int_ceil (distance / step_size) in
      Ok (fold_left (fun acc j => acc ++ [interp_point current dx dy num_steps j])
                    (range 1 num_steps) interpolated)
    else Ok interpolated
  else Ok interpolated.

(** [interpolate_path] *)
Definition interpolate_path (path : list PathPoint) (step_size : float)
  : py (list PathPoint) :=
  let* interpolated :=
    for_each (interpolate_segment path step_size)
             (range 0 (Z.of_nat (length path) - 1)) [] in
  let* last_point := index path (-1) in
  Ok (interpolated ++ [last_point]).

(** *** The interpolation as the specification words it *)

(** The distance of two points as [interpolate_path] computes it. *)
Definition point_distance (p q : PathPoint) : py float :=
  let* dx2 := float_pow2 P (x q - x p) in
  let* dy2 := float_pow2 P (y q - y p) in
  Ok (sqrt (dx2 + dy2)).

(** The number of steps of a segment: [Some n] with
    [n = ceil(distance / step_size)] when both ends are pen-down and their
    computed distance exceeds [step_size], [None] when the segment is
    passed through.  The computation raises when a square overflows or
    the quotient is not finite. *)
Definition num_steps_of (step_size : float) (p q : PathPoint) : py (option Z) :=
  if pen_down p && pen_down q then
    let* distance := point_distance p q in
    if gtb distance step_size then
      let* n := int_ceil (distance / step_size) in
      Ok (Some n)
    else Ok None
  else Ok None.

(** What is inserted between two adjacent points [p] and [q]. *)
Definition between (step_size : float) (p q : PathPoint) : py (list PathPoint) :=
  let* n := num_steps_of step_size p q in
  Ok (match n with
      | Some n => intermediate p q n
      | None => []
      end).

(** The interpolation of a path: every point, followed by what is inserted
    between it and the next point. *)
Fixpoint interpolate_spec (step_size : float) (path : list PathPoint)
  : py (list PathPoint) :=
  match path with
  | [] => Ok []
  | p :: rest =>
      match rest with
      | [] => Ok [p]
      | q :: _ =>
          let* inserted := between step_size p q in
          let* tail := interpolate_spec step_size rest in
          Ok (p :: inserted ++ tail)
      end
  end.

(** One stroke interpolated on its own: the pen-up point of the first
    vertex, the interpolation of the pen-down points, the pen-up point of
    the last vertex. *)
Definition interpolate_stroke (step_size scale offset_x offset_y : float)
    (stroke : Stroke) : py (list PathPoint) :=
  match stroke with
  | [] => Ok []
  | first :: _ =>
      let* inner :=
        interpolate_spec step_size (map (scaled scale offset_x offset_y true) stroke) in
      Ok (scaled scale offset_x offset_y false first :: inner
          ++ [scaled scale offset_x offset_y false (List.last stroke first)])
  end.

End Platform.

(** *** Exact distances *)






End PlatformPlanner.

(** * Properties *)

(** ** Facts on floats *)

Module PyFacts.
Import Py.
Local Open Scope float_scope.

(** Comparing the other way round gives the opposite answer. *)
Lemma SFcompare_swap (a b : spec_float) :
  SFcompare b a = option_map CompOpp (SFcompare a b).
Proof.
  destruct a as [sa| sa | |sa ma ea], b as [sb|sb| |sb mb eb]; simpl;
    try reflexivity;
    try (destruct sa; reflexivity);
    try (destruct sb; reflexivity);
    try (destruct sa, sb; reflexivity).
  pose proof (Pos.compare_cont_antisym ma mb Eq) as Hm. simpl in Hm.
  rewrite (Z.compare_antisym ea eb), <- Hm.
  destruct sa, sb; simpl; try reflexivity;
    destruct (ea ?= eb)%Z; simpl; try reflexivity;
    destruct (Pos.compare_cont Eq ma mb); reflexivity.
Qed.

(** Reduce a statement on [a <? b], [a <=? b] and the comparisons the other
    way round to the cases of the one comparison of [a] with [b]. *)
Ltac compare_cases a b :=
  rewrite ?ltb_spec, ?leb_spec; unfold SFltb, SFleb;
  rewrite (SFcompare_swap (Prim2SF a) (Prim2SF b));
  destruct (SFcompare (Prim2SF a) (Prim2SF b)) as [[]|] eqn:?; simpl;
  try congruence.

Lemma ltb_true_leb_false (a b : float) : (a <? b) = true -> (b <=? a) = false.
Proof. compare_cases a b. Qed.

Lemma leb_true_ltb_false (a b : float) : (a <=? b) = true -> (b <? a) = false.
Proof. compare_cases a b. Qed.

Lemma SFcompare_None (a b : spec_float) :
  SFcompare a b = None -> a = S754_nan \/ b = S754_nan.
Proof.
  destruct a as [sa| sa | |sa ma ea], b as [sb|sb| |sb mb eb]; simpl;
    intros H; try discriminate H; auto.
Qed.

(** On numbers the two orders are complementary. *)
Lemma ltb_false_leb_true (a b : float) :
  ~ is_nan a -> ~ is_nan b -> (a <? b) = false -> (b <=? a) = true.
Proof.
  unfold is_nan. intros Ha Hb. compare_cases a b.
  match goal with E : SFcompare _ _ = None |- _ =>
    destruct (SFcompare_None _ _ E); contradiction
  end.
Qed.

(** A comparison that holds has no NaN on either side. *)
Lemma leb_true_not_nan (a b : float) :
  (a <=? b) = true -> ~ is_nan a /\ ~ is_nan b.
Proof.
  unfold is_nan. rewrite leb_spec. unfold SFleb.
  destruct (Prim2SF a), (Prim2SF b); simpl; intros H; split; congruence.
Qed.

Lemma pow2_nan (v : float) : is_nan v -> is_nan (pow2 v).
Proof.
  unfold is_nan, pow2. intros H. rewrite mul_spec, H. reflexivity.
Qed.

Lemma add_nan_l (a b : float) : is_nan a -> is_nan (a + b).
Proof.
  unfold is_nan. intros H. rewrite add_spec, H. reflexivity.
Qed.

Lemma add_nan_r (a b : float) : is_nan b -> is_nan (a + b).
Proof.
  unfold is_nan. intros H. rewrite add_spec, H.
  destruct (Prim2SF a); reflexivity.
Qed.

Lemma sqrt_nan (v : float) : is_nan v -> is_nan (sqrt v).
Proof.
  unfold is_nan. intros H. rewrite sqrt_spec, H. reflexivity.
Qed.

End PyFacts.

(** ** The inverse kinematics solver *)

Module KinematicsFacts.
Import Py PyFacts Kinematics.
Local Open Scope float_scope.

(** The workspace limits set by [__init__] are numbers. *)
Lemma init_limits_numbers (a b c : float) :
  ~ is_nan (min_x (init a b c)) /\ ~ is_nan (max_x (init a b c)) /\
  ~ is_nan (min_y (init a b c)) /\ ~ is_nan (max_y (init a b c)).
Proof. unfold is_nan; repeat split; vm_compute; discriminate. Qed.

End KinematicsFacts.

(** ** The trajectory planner *)

Module PlannerFacts.
Import Py Planner.
Local Open Scope float_scope.

Lemma List_last_cons {A : Type} (a d : A) (l : list A) :
  List.last (a :: l) d = List.last l a.
Proof.
  revert a d. induction l as [|b l IH]; intros a d; [reflexivity|].
  change (List.last (a :: b :: l) d) with (List.last (b :: l) d).
  rewrite (IH b d), (IH b a). reflexivity.
Qed.

(** The inner loop of [plan_path] appends one pen-down point per vertex
    and leaves the last vertex, scaled, in [scaled_x] and [scaled_y]. *)
Lemma fold_pen_down_vertex (scale offset_x offset_y : float) (stroke : Stroke) :
  forall (path : list PathPoint) (d : float * float),
    fold_left (pen_down_vertex scale offset_x offset_y) stroke
      (path, fst d * scale + offset_x, snd d * scale + offset_y) =
    (path ++ map (scaled scale offset_x offset_y true) stroke,
     fst (List.last stroke d) * scale + offset_x,
     snd (List.last stroke d) * scale + offset_y).
Proof.
  induction stroke as [|[vx vy] stroke IH]; intros path d.
  - simpl. rewrite app_nil_r. reflexivity.
  - rewrite List_last_cons. simpl fold_left.
    rewrite (IH _ (vx, vy)). rewrite <- app_assoc. reflexivity.
Qed.

Lemma plan_stroke_spec (scale offset_x offset_y : float)
    (path : list PathPoint) (stroke : Stroke) :
  plan_stroke scale offset_x offset_y path stroke =
  path ++ stroke_points scale offset_x offset_y stroke.
Proof.
  destruct stroke as [|[sx sy] stroke].
  - simpl. rewrite app_nil_r. reflexivity.
  - unfold plan_stroke, stroke_points.
    rewrite (fold_pen_down_vertex scale offset_x offset_y _ _ (sx, sy)).
    rewrite <- !app_assoc. reflexivity.
Qed.

Lemma fold_plan_stroke (scale offset_x offset_y : float) (strokes : list Stroke) :
  forall path : list PathPoint,
    fold_left (plan_stroke scale offset_x offset_y) strokes path =
    path ++ plan_path_spec strokes scale offset_x offset_y.
Proof.
  induction strokes as [|stroke strokes IH]; intros path.
  - simpl. rewrite app_nil_r. reflexivity.
  - simpl fold_left. rewrite IH, plan_stroke_spec.
    unfold plan_path_spec. simpl. rewrite <- app_assoc. reflexivity.
Qed.

(** C4.  For every list of strokes, scale and offsets, [plan_path] returns
    (and stores in [current_path]) the concatenation, in stroke order, of
    one block per stroke: nothing for an empty stroke, and otherwise a
    pen-up point at the scaled and offset first vertex, a pen-down point
    per vertex in order, and a pen-up point at the scaled and offset final
    vertex.  On the single stroke [[(50,100), (150,100)]] with scale 1 and
    offsets 0 and 200 the path is pen-up (50,300), pen-down (50,300),
    pen-down (150,300), pen-up (150,300). *)
Theorem plan_path_emits_strokes_in_order :
  (forall (self : CalligraphyPlanner) (strokes : list Stroke)
          (scale offset_x offset_y : float),
      snd (plan_path self strokes scale offset_x offset_y) =
        plan_path_spec strokes scale offset_x offset_y /\
      current_path (fst (plan_path self strokes scale offset_x offset_y)) =
        plan_path_spec strokes scale offset_x offset_y) /\
  (forall self : CalligraphyPlanner,
      snd (plan_path self [[(50, 100); (150, 100)]] 1 0 200) =
        [ {| x := 50; y := 300; pen_down := false |};
          {| x := 50; y := 300; pen_down := true |};
          {| x := 150; y := 300; pen_down := true |};
          {| x := 150; y := 300; pen_down := false |} ]).
Proof.
  split.
  - intros self strokes scale offset_x offset_y.
    unfold plan_path. simpl. rewrite fold_plan_stroke. auto.
  - intros self. vm_compute. reflexivity.
Qed.

(** *** [interpolate_path] *)

Lemma index_middle {A : Type} (pre : list A) (p : A) (rest : list A) :
  index (pre ++ p :: rest) (Z.of_nat (length pre)) = Ok p.
Proof.
  assert (E : (Z.of_nat (length pre) <? 0)%Z = false) by (apply Z.ltb_ge; lia).
  unfold index. cbv zeta. rewrite !E.
  rewrite Nat2Z.id, list_lookup_middle by reflexivity. reflexivity.
Qed.

Lemma index_after_middle {A : Type} (pre : list A) (p q : A) (rest : list A) :
  index (pre ++ p :: q :: rest) (Z.of_nat (length pre) + 1) = Ok q.
Proof.
  replace (pre ++ p :: q :: rest) with ((pre ++ [p]) ++ q :: rest)
    by (rewrite <- app_assoc; reflexivity).
  replace (Z.of_nat (length pre) + 1)%Z with (Z.of_nat (length (pre ++ [p])))
    by (rewrite length_app; simpl; lia).
  apply index_middle.
Qed.

Lemma index_last {A : Type} (p : A) (rest : list A) :
  index (p :: rest) (-1) = Ok (List.last rest p).
Proof.
  assert (E : (Z.of_nat (length rest) <? 0)%Z = false) by (apply Z.ltb_ge; lia).
  unfold index. cbv zeta.
  replace (-1 <? 0)%Z with true by reflexivity.
  replace (Z.of_nat (length (p :: rest)) + -1)%Z with (Z.of_nat (length rest))
    by (simpl length; lia).
  rewrite E, Nat2Z.id. clear E.
  revert p. induction rest as [|q rest IH]; intros p; [reflexivity|].
  rewrite List_last_cons. simpl. apply (IH q).
Qed.

Lemma fold_append_map {A B : Type} (f : A -> B) (l : list A) :
  forall acc : list B,
    fold_left (fun acc j => acc ++ [f j]) l acc = acc ++ map f l.
Proof.
  induction l as [|a l IH]; intros acc; simpl.
  - rewrite app_nil_r. reflexivity.
  - rewrite IH, <- app_assoc. reflexivity.
Qed.

(** One round of the loop appends the current point and what belongs
    between it and the next one. *)
Lemma interpolate_segment_spec (step_size : float)
    (pre : list PathPoint) (p q : PathPoint) (rest acc : list PathPoint) :
  interpolate_segment (pre ++ p :: q :: rest) step_size acc (Z.of_nat (length pre)) =
  bind (between step_size p q) (fun inserted => Ok (acc ++ p :: inserted)).
Proof.
  unfold interpolate_segment.
  rewrite index_middle, index_after_middle. simpl bind.
  unfold between, num_steps_of, point_distance.
  destruct (pen_down p), (pen_down q); simpl; try reflexivity.
  destruct (gtb _ step_size); simpl; [|reflexivity].
  destruct (int_ceil _) as [n|e]; simpl; [|reflexivity].
  rewrite fold_append_map, <- app_assoc. reflexivity.
Qed.

Lemma interpolate_loop_spec (step_size : float) (rest : list PathPoint) :
  forall (pre : list PathPoint) (p : PathPoint) (acc : list PathPoint),
    bind (for_each (interpolate_segment (pre ++ p :: rest) step_size)
                   (seqZ (Z.of_nat (length pre)) (Z.of_nat (length rest))) acc)
         (fun interpolated => Ok (interpolated ++ [List.last rest p])) =
    bind (interpolate_spec step_size (p :: rest)) (fun out => Ok (acc ++ out)).
Proof.
  induction rest as [|q rest IH]; intros pre p acc; [reflexivity|].
  rewrite seqZ_cons by (simpl; lia).
  replace (Z.pred (Z.of_nat (length (q :: rest)))) with (Z.of_nat (length rest))
    by (simpl; lia).
  cbn [for_each]. rewrite interpolate_segment_spec.
  change (interpolate_spec step_size (p :: q :: rest)) with
    (bind (between step_size p q) (fun inserted =>
     bind (interpolate_spec step_size (q :: rest)) (fun tail =>
     Ok (p :: inserted ++ tail)))).
  destruct (between step_size p q) as [inserted|e]; [|reflexivity].
  cbn [bind]. rewrite List_last_cons.
  specialize (IH (pre ++ [p]) q (acc ++ p :: inserted)).
  rewrite <- app_assoc in IH. cbn [app] in IH.
  replace (Z.of_nat (length (pre ++ [p]))) with (Z.succ (Z.of_nat (length pre))) in IH
    by (rewrite length_app; simpl; lia).
  rewrite IH.
  destruct (interpolate_spec step_size (q :: rest)) as [tail|e]; [|reflexivity].
  cbn [bind]. rewrite <- app_assoc. reflexivity.
Qed.

(** On a path that is not empty the loop of [interpolate_path] computes the
    interpolation worded above. *)
Lemma interpolate_path_spec (path : list PathPoint) (step_size : float) :
  path <> [] -> interpolate_path path step_size = interpolate_spec step_size path.
Proof.
  destruct path as [|p rest]; [congruence|]. intros _.
  unfold interpolate_path, range.
  rewrite index_last.
  replace (Z.of_nat (length (p :: rest)) - 1 - 0)%Z with (Z.of_nat (length rest))
    by (simpl; lia).
  transitivity (bind (interpolate_spec step_size (p :: rest)) (fun out => Ok ([] ++ out))).
  - exact (interpolate_loop_spec step_size rest [] p []).
  - destruct (interpolate_spec step_size (p :: rest)); reflexivity.
Qed.

(** The points inserted into a segment cut into [n] steps: there are
    [n - 1] of them (none when [n <= 1]), all pen-down, the [j]-th at the
    parameter [t = j/n]. *)
Lemma intermediate_points (p q : PathPoint) (n : Z) :
  length (intermediate p q n) = Z.to_nat (n - 1) /\
  (forall j : Z, (1 <= j < n)%Z ->
     intermediate p q n !! Z.to_nat (j - 1) =
       Some {| x := x p + int_true_div j n * (x q - x p);
               y := y p + int_true_div j n * (y q - y p);
               pen_down := true |}) /\
  Forall (fun r => pen_down r = true) (intermediate p q n).
Proof.
  unfold intermediate. split; [|split].
  - rewrite length_map, length_seqZ. reflexivity.
  - intros j Hj.
    change (map ?f ?l) with (f <$> l).
    rewrite list_lookup_fmap, lookup_seqZ_lt by lia.
    replace (1 + Z.of_nat (Z.to_nat (j - 1)))%Z with j by lia. reflexivity.
  - apply Forall_forall. intros r Hr.
    apply list_elem_of_In, in_map_iff in Hr. destruct Hr as (j & <- & _).
    reflexivity.
Qed.

(** What the interpolation keeps of its input: the points of the input
    appear in the output in their order, and the last point is the same. *)
Lemma interpolate_spec_preserves (step_size : float) (path : list PathPoint) :
  forall out : list PathPoint,
    interpolate_spec step_size path = Ok out ->
    path `sublist_of` out /\ last out = last path.
Proof.
  induction path as [|p rest IH]; intros out H.
  - injection H as <-. split; [constructor | reflexivity].
  - destruct rest as [|q rest].
    + injection H as <-. split; [reflexivity | reflexivity].
    + change (interpolate_spec step_size (p :: q :: rest)) with
        (bind (between step_size p q) (fun inserted =>
         bind (interpolate_spec step_size (q :: rest)) (fun tail =>
         Ok (p :: inserted ++ tail)))) in H.
      destruct (between step_size p q) as [inserted|]; [|discriminate].
      destruct (interpolate_spec step_size (q :: rest)) as [tail|]; [|discriminate].
      injection H as <-. destruct (IH tail eq_refl) as [Hsub Hlast].
      split.
      * apply sublist_skip, sublist_inserts_l, Hsub.
      * rewrite last_cons_cons, <- Hlast, last_cons, last_app.
        rewrite Hlast, last_cons. destruct (last rest); reflexivity.
Qed.

(** On a path that is not empty, a result of [interpolate_path] is at least
    as long as the path, holds its points in their order and ends with its
    last point. *)
Lemma interpolate_path_preserves (path out : list PathPoint) (step_size : float) :
  path <> [] ->
  interpolate_path path step_size = Ok out ->
  length path <= length out /\ path `sublist_of` out /\ last out = last path.
Proof.
  intros Hne H. rewrite interpolate_path_spec in H by exact Hne.
  destruct (interpolate_spec_preserves _ _ _ H) as [Hsub Hlast].
  auto using sublist_length.
Qed.

(** C8 fails on the empty path: [path[-1]] raises [IndexError], whatever
    the step size, so [interpolate_path] returns no sequence at all. *)
Theorem interpolate_path_empty_raises (step_size : float) :
  interpolate_path [] step_size = Exc IndexError.
Proof. reflexivity. Qed.

End PlannerFacts.

(** ** The controller *)

Module ControlFacts.
Import Py Control.

(** *** The command exchange *)

Lemma send_command_connected (self : RobotController) (command : string) (w : World) :
  connected self ->
  send_command self command w =
    match rx w with
    | [] => (Some EmptyString, log (Write (command +:+ newline)) w)
    | Some line :: rest =>
        (Some (strip line), set_rx rest (log (Write (command +:+ newline)) w))
    | None :: rest => (None, set_rx rest (log (Write (command +:+ newline)) w))
    end.
Proof.
  intros [Hc Hs]. unfold send_command. rewrite Hc, Hs. simpl.
  destruct (rx w) as [|[line|] rest]; reflexivity.
Qed.

(** Only a connected controller obtains a response. *)
Lemma send_command_Some (self : RobotController) (command : string) (w : World)
    (r : string) :
  fst (send_command self command w) = Some r -> connected self.
Proof.
  unfold send_command, connected.
  destruct (is_connected self); simpl; [|discriminate].
  destruct (serial self) as [[[|]]|]; simpl; try discriminate. auto.
Qed.

(** A command writes at most its own line. *)
Lemma send_command_trace (self : RobotController) (command : string) (w : World) :
  trace (snd (send_command self command w)) = trace w \/
  trace (snd (send_command self command w)) = trace w ++ [Write (command +:+ newline)].
Proof.
  unfold send_command.
  destruct (is_connected self); simpl; auto.
  destruct (serial self) as [[[|]]|]; simpl; auto.
  destruct (rx w) as [|[line|] rest]; simpl; auto.
Qed.

Lemma has_marker_Some (marker : string) (response : option string) :
  has_marker marker response = true -> exists r, response = Some r.
Proof. destruct response; [eauto | discriminate]. Qed.

(** One poll of a connected controller consumes one answer. *)
Lemma get_status_connected (self : RobotController) (w : World)
    (entry : option string) (rest : list (option string)) :
  connected self -> rx w = entry :: rest ->
  get_status self w = (status_of entry, set_rx rest (log (Write status_line) w)).
Proof.
  intros Hc Hrx. unfold get_status.
  rewrite (send_command_connected _ _ _ Hc). simpl rx. rewrite Hrx.
  destruct entry; reflexivity.
Qed.

(** *** Parsing the status *)

Lemma split_go_not_nil (sep s : string) :
  forall (skip : nat) (cur : string), split_go sep skip cur s <> [].
Proof.
  induction s as [|c s IH]; intros skip cur; cbn [split_go]; [discriminate|].
  destruct skip; [|apply IH].
  destruct (String.prefix sep (String c s)); [discriminate | apply IH].
Qed.

Lemma parse_status_items_not_empty (items : list string) :
  forall m st : Status,
    for_each parse_status_item items m = Ok st ->
    m <> ∅ \/ items <> [] -> st <> ∅.
Proof.
  induction items as [|item items IH]; intros m st H Hne.
  - simpl in H. injection H as <-. destruct Hne; congruence.
  - simpl in H. unfold parse_status_item at 1 in H.
    destruct (split ":" item) as [|key [|value [|? ?]]]; try discriminate H.
    simpl in H. apply (IH _ _ H). left. apply insert_non_empty.
Qed.

(** A status that [get_status] returns has at least one key, so that it is
    true as a condition. *)
Lemma parse_status_not_empty (response : option string) (st : Status) :
  parse_status response = Ok (Some st) -> st <> ∅.
Proof.
  unfold parse_status. destruct response as [r|]; [|discriminate].
  destruct (has_marker "STATUS:" (Some r)); [|discriminate].
  destruct (index (split "STATUS:" r) 1) as [status_str|]; [|discriminate].
  simpl. destruct (for_each _ _ _) as [m|] eqn:E; [|discriminate].
  intros H. injection H as <-.
  apply (parse_status_items_not_empty _ _ _ E). right. apply split_go_not_nil.
Qed.

Lemma polls_on_moving (entry : option string) :
  polls_on entry -> exists st, status_of entry = Ok st /\ not_moving st = false.
Proof.
  intros [H | (st & H & Hm)].
  - exists None. auto.
  - exists (Some st). split; [exact H|].
    unfold not_moving. rewrite Hm. apply andb_false_r.
Qed.

(** A parsed status ends the wait unless it maps [moving] to true. *)
Lemma parsed_not_moving (entry : option string) (st : Status) :
  status_of entry = Ok (Some st) ->
  default false (st !! "moving") = false ->
  not_moving (Some st) = true.
Proof.
  intros H Hm. unfold not_moving.
  rewrite Hm, bool_decide_eq_true_2; [reflexivity|].
  eapply parse_status_not_empty, H.
Qed.

Lemma reports_idle_not_moving (entry : option string) :
  reports_moving entry false ->
  exists st, status_of entry = Ok st /\ not_moving st = true.
Proof.
  intros (st & H & Hm). exists (Some st). split; [exact H|].
  apply (parsed_not_moving entry st H). rewrite Hm. reflexivity.
Qed.

Lemma lacks_moving_not_moving (entry : option string) :
  lacks_moving entry ->
  exists st, status_of entry = Ok st /\ not_moving st = true.
Proof.
  intros (st & H & Hm). exists (Some st). split; [exact H|].
  apply (parsed_not_moving entry st H). rewrite Hm. reflexivity.
Qed.

(** A device that has nothing more to say keeps the loop waiting: every
    read times out and no amount of fuel makes the loop return. *)
Lemma wait_until_idle_silent_device (self : RobotController) (fuel : nat) :
  forall w : World,
    connected self -> rx w = [] ->
    fst (wait_until_idle fuel self w) = OutOfFuel.
Proof.
  induction fuel as [|fuel IH]; intros w Hc Hrx; [reflexivity|].
  simpl wait_until_idle. unfold get_status.
  rewrite (send_command_connected _ _ _ Hc). simpl rx. rewrite Hrx.
  apply IH; [exact Hc | exact Hrx].
Qed.

(** *** The wait loop *)

(** With enough fuel the loop polls through the answers that keep it
    waiting, a sleep after each, and returns at the first answer that is
    not moving, which it consumes; nothing after it is read. *)
Lemma wait_until_idle_returns (self : RobotController)
    (polls : list (option string)) :
  forall (w : World) (final : option string) (rest : list (option string))
         (fuel : nat),
    connected self ->
    rx w = polls ++ final :: rest ->
    Forall (fun e => exists st, status_of e = Ok st /\ not_moving st = false) polls ->
    (exists st, status_of final = Ok st /\ not_moving st = true) ->
    length polls < fuel ->
    wait_until_idle fuel self w = (Returns true, after_polls w (length polls) rest).
Proof.
  induction polls as [|e polls IH]; intros w final rest fuel Hc Hrx Hp Hf Hfuel;
    (destruct fuel as [|fuel]; [simpl in Hfuel; lia|]); simpl wait_until_idle.
  - destruct Hf as (st & Hst & Hnm).
    rewrite (get_status_connected _ _ _ _ Hc Hrx), Hst, Hnm. reflexivity.
  - inversion Hp as [|? ? (st & Hst & Hnm) Hp']; subst.
    change ((e :: polls) ++ final :: rest) with (e :: (polls ++ final :: rest)) in Hrx.
    rewrite (get_status_connected _ _ _ _ Hc Hrx), Hst, Hnm.
    rewrite (IH (log (Sleep poll_interval)
                     (set_rx (polls ++ final :: rest) (log (Write status_line) w)))
                final rest fuel Hc eq_refl Hp' Hf) by (simpl in Hfuel; lia).
    unfold after_polls, poll_trace. simpl.
    rewrite <- !app_assoc. reflexivity.
Qed.

(** An acknowledged MOVE is followed by the wait loop, which returns at
    the first answer that is not moving. *)
Lemma move_to_acknowledged (format_float : float -> string) (fuel : nat)
    (self : RobotController) (x y z : float) (w : World)
    (polls : list (option string)) (final : option string)
    (rest : list (option string)) :
  is_homed self = true ->
  has_marker "OK" (fst (send_command self (move_command format_float x y z) w)) = true ->
  rx (snd (send_command self (move_command format_float x y z) w)) =
    polls ++ final :: rest ->
  Forall polls_on polls ->
  (exists st, status_of final = Ok st /\ not_moving st = true) ->
  length polls < fuel ->
  move_to format_float fuel self x y z w =
    (Returns true,
     after_polls (snd (send_command self (move_command format_float x y z) w))
                 (length polls) rest).
Proof.
  intros Hh Hack Hrx Hp Hf Hfuel. unfold move_to. rewrite Hh. simpl negb. cbv iota.
  destruct (has_marker_Some _ _ Hack) as [r Hr].
  pose proof (send_command_Some _ _ _ _ Hr) as Hc.
  destruct (send_command self (move_command format_float x y z) w) as [response w1].
  simpl in Hack, Hrx |- *. rewrite Hack.
  apply (wait_until_idle_returns self polls w1 final rest fuel Hc Hrx); auto.
  eapply Forall_impl; [exact Hp|]. intros e. apply polls_on_moving.
Qed.

Lemma send_command_Some_trace (self : RobotController) (command : string) (w : World)
    (r : string) :
  fst (send_command self command w) = Some r ->
  trace (snd (send_command self command w)) = trace w ++ [Write (command +:+ newline)].
Proof.
  intros H. pose proof (send_command_Some _ _ _ _ H) as Hc.
  rewrite (send_command_connected _ _ _ Hc).
  destruct (rx w) as [|[line|] rest]; reflexivity.
Qed.

(** *** The claims on the controller *)

(** C1.  For every controller whose [is_homed] is false and all arguments,
    [move_to] returns [False] and leaves the world as it was: nothing is
    written to the transport. *)
Theorem move_to_refused_before_homing (format_float : float -> string)
    (fuel : nat) (self : RobotController) (x y z : float) (w : World) :
  is_homed self = false ->
  move_to format_float fuel self x y z w = (Returns false, w) /\
  writes (snd (move_to format_float fuel self x y z w)) = writes w.
Proof.
  intros H. unfold move_to. rewrite H. split; reflexivity.
Qed.

(** C1 on a controller that has connected and not homed. *)
Lemma move_to_refused_before_homing_witness :
  is_homed (snd (fst (connect fresh_controller obliging_device))) = false /\
  move_to format_stub 5 (snd (fst (connect fresh_controller obliging_device)))
          100 200 10 (snd (connect fresh_controller obliging_device)) =
    (Returns false, snd (connect fresh_controller obliging_device)) /\
  writes (snd (move_to format_stub 5 (snd (fst (connect fresh_controller obliging_device)))
                       100 200 10 (snd (connect fresh_controller obliging_device)))) =
    writes (snd (connect fresh_controller obliging_device)).
Proof.
  split; [reflexivity|].
  apply (move_to_refused_before_homing format_stub 5
           (snd (fst (connect fresh_controller obliging_device))) 100 200 10
           (snd (connect fresh_controller obliging_device))).
  reflexivity.
Defined.

(** C2.  Let a homed controller send its MOVE command.  If the response
    contains [OK], the command line has been written and [move_to] polls
    STATUS, sleeping the fixed interval after every answer that gives no
    status or reports [moving] true; at the first answer that reports
    [moving] false it returns [True], with that answer consumed and nothing
    after it read or written.  If there is no response or it does not
    contain [OK], [move_to] returns [False] and has written at most the
    MOVE line: no STATUS query.  (The controller keeps no attribute for a
    motion sub-state and [move_to] assigns to none of its attributes.) *)
Theorem move_to_waits_for_idle (format_float : float -> string) (fuel : nat)
    (self : RobotController) (x y z : float) (w : World)
    (Hhomed : is_homed self = true) :
  let command := move_command format_float x y z in
  let response := fst (send_command self command w) in
  let w1 := snd (send_command self command w) in
  (has_marker "OK" response = true ->
     trace w1 = trace w ++ [Write (command +:+ newline)] /\
     forall (polls : list (option string)) (final : option string)
            (rest : list (option string)),
       rx w1 = polls ++ final :: rest ->
       Forall polls_on polls ->
       reports_moving final false ->
       length polls < fuel ->
       move_to format_float fuel self x y z w =
         (Returns true, after_polls w1 (length polls) rest)) /\
  (has_marker "OK" response = false ->
     move_to format_float fuel self x y z w = (Returns false, w1) /\
     (trace w1 = trace w \/ trace w1 = trace w ++ [Write (command +:+ newline)])).
Proof.
  intros command response w1. split.
  - intros Hack. split.
    + destruct (has_marker_Some _ _ Hack) as [r Hr].
      apply (send_command_Some_trace _ _ _ _ Hr).
    + intros polls final rest Hrx Hp Hf Hfuel.
      apply (move_to_acknowledged format_float fuel self x y z w polls final rest);
        auto using reports_idle_not_moving.
  - intros Hnack. split; [|apply send_command_trace].
    unfold move_to. rewrite Hhomed. simpl negb. cbv iota.
    subst response w1 command.
    destruct (send_command self (move_command format_float x y z) w) as [r w'].
    simpl in Hnack |- *. rewrite Hnack. reflexivity.
Qed.

(** C2 on a device that moves for two polls, and on one that refuses. *)
Lemma move_to_waits_for_idle_witness :
  is_homed homed_controller = true /\
  move_to format_stub 3 homed_controller 100 200 10 moving_device =
    (Returns true,
     {| port_available := true;
        rx := [Some "unread"];
        trace := [Write (move_command format_stub 100 200 10 +:+ newline);
                  Write status_line; Sleep poll_interval;
                  Write status_line; Sleep poll_interval;
                  Write status_line] |}) /\
  move_to format_stub 3 homed_controller 100 200 10 refusing_device =
    (Returns false,
     {| port_available := true;
        rx := [Some "unread"];
        trace := [Write (move_command format_stub 100 200 10 +:+ newline)] |}).
Proof.
  split; [reflexivity|]. split.
  - destruct (move_to_waits_for_idle format_stub 3 homed_controller 100 200 10
                moving_device eq_refl) as [Hack _].
    destruct (Hack eq_refl) as [_ Hloop].
    apply (Hloop [Some "STATUS:moving:1,homed:1"; None]
                 (Some "STATUS:moving:0,homed:1") [Some "unread"]).
    + reflexivity.
    + constructor; [|constructor; [|constructor]].
      * right. eexists. split; reflexivity.
      * left. reflexivity.
    + eexists. split; reflexivity.
    + simpl. lia.
  - destruct (move_to_waits_for_idle format_stub 3 homed_controller 100 200 10
                refusing_device eq_refl) as [_ Hnack].
    exact (proj1 (Hnack eq_refl)).
Defined.

(** C10.  After an acknowledged MOVE, the first poll whose answer parses
    to a status without the key [moving] ends the wait: [move_to] returns
    [True] there, with nothing after that answer read or written. *)
Theorem move_to_missing_moving_is_idle (format_float : float -> string) (fuel : nat)
    (self : RobotController) (x y z : float) (w : World)
    (polls : list (option string)) (final : option string)
    (rest : list (option string)) :
  is_homed self = true ->
  has_marker "OK" (fst (send_command self (move_command format_float x y z) w)) = true ->
  rx (snd (send_command self (move_command format_float x y z) w)) =
    polls ++ final :: rest ->
  Forall polls_on polls ->
  lacks_moving final ->
  length polls < fuel ->
  move_to format_float fuel self x y z w =
    (Returns true,
     after_polls (snd (send_command self (move_command format_float x y z) w))
                 (length polls) rest).
Proof.
  intros. apply (move_to_acknowledged format_float fuel self x y z w polls final rest);
    auto using lacks_moving_not_moving.
Qed.

(** C10 on a device whose first status names only [homed]. *)
Lemma move_to_missing_moving_is_idle_witness :
  lacks_moving (Some "STATUS:homed:1") /\
  move_to format_stub 1 homed_controller 100 200 10 terse_device =
    (Returns true,
     {| port_available := true;
        rx := [Some "unread"];
        trace := [Write (move_command format_stub 100 200 10 +:+ newline);
                  Write status_line] |}).
Proof.
  assert (H : lacks_moving (Some "STATUS:homed:1"))
    by (eexists; split; reflexivity).
  split; [exact H|].
  apply (move_to_missing_moving_is_idle format_stub 1 homed_controller 100 200 10
           terse_device [] (Some "STATUS:homed:1") [Some "unread"]).
  - reflexivity.
  - reflexivity.
  - reflexivity.
  - constructor.
  - exact H.
  - simpl. lia.
Defined.

(** The part of C7 that holds: the status line of the specification
    parses to [moving] and [homed] both true, and a response that does not
    contain [STATUS:], or no response, gives [None]. *)
Lemma parse_status_well_formed :
  parse_status (Some "STATUS:moving:1,homed:1") =
    Ok (Some {[ "moving" := true; "homed" := true ]}) /\
  (forall r : string, contains "STATUS:" r = false -> parse_status (Some r) = Ok None) /\
  parse_status None = Ok None.
Proof.
  split; [reflexivity|]. split; [|reflexivity].
  intros r H. unfold parse_status, has_marker. rewrite H, andb_false_r. reflexivity.
Qed.

(** [get_position] raises as well when a coordinate is not a number. *)
Lemma parse_position_not_a_number (parse_float : string -> option float) :
  parse_float "abc" = None ->
  parse_position parse_float (Some "POS:abc") = Exc ValueError.
Proof.
  intros H. vm_compute. rewrite H. reflexivity.
Qed.

(** C7 fails on a status line with a flag that has no value.  The response
    [STATUS:moving] contains the marker, its one item splits on [':'] into
    one piece, and unpacking it into key and value raises [ValueError]:
    [get_status] returns neither a status nor [None]; and [move_to], which
    polls with [get_status], raises with it. *)
Theorem get_status_raises_on_flag_without_value :
  parse_status (Some "STATUS:moving") = Exc ValueError /\
  fst (get_status homed_controller garbling_device) = Exc ValueError /\
  (forall fuel : nat,
      fst (move_to format_stub (S fuel) homed_controller 100 200 10
             {| port_available := true;
                rx := [Some "OK"; Some "STATUS:moving"];
                trace := [] |}) = Raises ValueError).
Proof.
  split; [reflexivity|]. split; [reflexivity|]. intros fuel. reflexivity.
Qed.

(** What holds of C9: [disconnect] leaves no open port behind and, when
    the port was open, clears [is_connected]; [connect] sets
    [is_connected] and never [is_homed]. *)
Lemma disconnect_closes (self : RobotController) (w : World) :
  (is_connected self = true -> connected self) ->
  is_connected (fst (disconnect self w)) = false /\
  serial (fst (disconnect self w)) <> Some {| is_open := true |}.
Proof.
  intros Hinv. unfold disconnect.
  destruct (serial self) as [[[|]]|] eqn:Hs; simpl.
  - split; [reflexivity | discriminate].
  - rewrite Hs. split; [|discriminate].
    destruct (is_connected self); [|reflexivity].
    destruct (Hinv eq_refl) as [_ H]. congruence.
  - rewrite Hs. split; [|discriminate].
    destruct (is_connected self); [|reflexivity].
    destruct (Hinv eq_refl) as [_ H]. congruence.
Qed.

(** Neither [disconnect] nor [connect] touches [is_homed]. *)
Lemma reconnect_keeps_is_homed (self : RobotController) (w : World) :
  is_homed (fst (disconnect self w)) = is_homed self /\
  is_homed (snd (fst (connect self w))) = is_homed self.
Proof.
  unfold disconnect, connect. split.
  - destruct (serial self) as [[[|]]|]; reflexivity.
  - destruct (port_available w); reflexivity.
Qed.

(** C9 fails in its conclusion.  A controller connects, homes,
    disconnects and connects again; [is_homed] is still true, and the next
    [move_to] is not rejected: it writes its MOVE line, polls and returns
    [True], although [home] has not run since the reconnection. *)
Theorem move_to_accepted_after_reconnect (fuel : nat) :
  move_after_reconnect (S fuel) =
    (Returns true,
     {| port_available := true;
        rx := [];
        trace := [Open; Sleep 2; Write ("HOME" +:+ newline);
                  Close;
                  Open; Sleep 2;
                  Write (move_command format_stub 100 200 10 +:+ newline);
                  Write status_line] |}).
Proof. reflexivity. Qed.

End ControlFacts.

(** ** The remaining commands of the controller *)

Module CommandsFacts.
Import Py Control Commands ControlFacts.

Lemma send_command_offline (self : RobotController) (command : string) (w : World) :
  offline self -> send_command self command w = (None, w).
Proof.
  intros [H _]. unfold send_command. rewrite H. reflexivity.
Qed.

Lemma init_consistent (port : string) (baudrate : Z) (timeout : float) :
  consistent (init port baudrate timeout).
Proof. split; simpl; discriminate. Qed.

Lemma connect_consistent (self : RobotController) (w : World) :
  consistent self -> consistent (snd (fst (connect self w))).
Proof.
  intros H. unfold connect. destruct (port_available w); [|exact H].
  split; simpl; intros _; [reflexivity | discriminate].
Qed.

Lemma disconnect_consistent (self : RobotController) (w : World) :
  consistent self -> consistent (fst (disconnect self w)).
Proof.
  intros H. unfold disconnect.
  destruct (serial self) as [[[|]]|] eqn:Hs; simpl; try exact H.
  split; simpl; intros; discriminate.
Qed.

Lemma home_consistent (self : RobotController) (w : World) :
  consistent self -> consistent (snd (fst (home self w))).
Proof.
  intros H. unfold home.
  destruct (send_command self "HOME" w) as [response w1] eqn:E.
  destruct (has_marker "OK" response) eqn:Hm; [|exact H].
  destruct (has_marker_Some _ _ Hm) as [r ->].
  assert (Hc : connected self)
    by (apply (send_command_Some self "HOME" w r); rewrite E; reflexivity).
  destruct Hc as [Hc Hs]. split; simpl; intros _; [exact Hs | congruence].
Qed.

Section Sessions.

Variable format_float : float -> string.
Variable parse_float : string -> option float.
Variable fuel : nat.

Local Abbreviation step := (Commands.step format_float parse_float fuel).
Local Abbreviation run := (Commands.run format_float parse_float fuel).

(** Only [connect], [disconnect] and [home] assign to the controller. *)
Lemma step_controller (c : call) (self : RobotController) (w : World) :
  fst (step c (self, w)) =
    match c with
    | Connect => snd (fst (connect self w))
    | Disconnect => fst (disconnect self w)
    | Home => snd (fst (home self w))
    | _ => self
    end.
Proof.
  destruct c; simpl; try reflexivity.
  - destruct (connect self w) as [[? ?] ?]. reflexivity.
  - destruct (home self w) as [[? ?] ?]. reflexivity.
Qed.

Lemma step_consistent (c : call) (st : RobotController * World) :
  consistent (fst st) -> consistent (fst (step c st)).
Proof.
  destruct st as [self w]. intros H. rewrite step_controller.
  destruct c; auto using connect_consistent, disconnect_consistent, home_consistent.
Qed.

Lemma run_consistent (calls : list call) :
  forall st : RobotController * World,
    consistent (fst st) -> consistent (fst (run calls st)).
Proof.
  induction calls as [|c calls IH]; intros st H; [exact H|].
  apply IH, step_consistent, H.
Qed.

Lemma step_keeps_homed (c : call) (st : RobotController * World) :
  is_homed (fst st) = true -> is_homed (fst (step c st)) = true.
Proof.
  destruct st as [self w]. intros H. rewrite step_controller.
  destruct c; try exact H.
  - unfold connect. destruct (port_available w); exact H.
  - unfold disconnect. destruct (serial self) as [[[|]]|]; exact H.
  - unfold home. destruct (send_command self "HOME" w) as [response w1].
    destruct (has_marker "OK" response); [reflexivity | exact H].
Qed.

(** A controller that is off line answers every call but a successful
    [connect] without touching the port, and stays as it is. *)
Lemma step_offline (c : call) (self : RobotController) (w : World) :
  offline self ->
  c <> Connect \/ port_available w = false ->
  step c (self, w) = (self, w).
Proof.
  intros Hoff Hc. pose proof (send_command_offline self) as Hsend.
  destruct c; simpl.
  - destruct Hc as [Hc | Hc]; [congruence|]. unfold connect. rewrite Hc. reflexivity.
  - unfold disconnect. destruct Hoff as [_ Hs].
    destruct (serial self) as [[[|]]|]; try reflexivity. congruence.
  - unfold home. rewrite (Hsend _ _ Hoff). reflexivity.
  - unfold move_to. destruct (is_homed self); [|reflexivity].
    simpl. rewrite (Hsend _ _ Hoff). reflexivity.
  - unfold pen_up. rewrite (Hsend _ _ Hoff). reflexivity.
  - unfold pen_down. rewrite (Hsend _ _ Hoff). reflexivity.
  - unfold set_speed. rewrite (Hsend _ _ Hoff). reflexivity.
  - unfold get_status. rewrite (Hsend _ _ Hoff). reflexivity.
  - unfold get_position. rewrite (Hsend _ _ Hoff). reflexivity.
  - unfold emergency_stop. rewrite (Hsend _ _ Hoff). reflexivity.
Qed.

Lemma run_offline (calls : list call) (self : RobotController) (w : World) :
  offline self ->
  Forall (fun c => c <> Connect) calls \/ port_available w = false ->
  run calls (self, w) = (self, w).
Proof.
  intros Hoff. induction calls as [|c calls IH]; intros Hc; [reflexivity|].
  change (run (c :: calls) (self, w)) with (run calls (step c (self, w))).
  rewrite step_offline; [apply IH | exact Hoff |].
  - destruct Hc as [Hc | Hc]; [left; inversion Hc; assumption | right; exact Hc].
  - destruct Hc as [Hc | Hc]; [left; inversion Hc; assumption | right; exact Hc].
Qed.

Lemma disconnect_offline (self : RobotController) (w : World) :
  consistent self -> offline (fst (disconnect self w)).
Proof.
  intros [H _]. apply disconnect_closes. intros Hc. split; auto.
Qed.

(** X1.  In every state that a sequence of calls reaches from a fresh
    controller, a controller that believes it is connected holds an open
    port, and a controller that is homed has opened a port before. *)
Theorem reachable_states_consistent (calls : list call)
    (port : string) (baudrate : Z) (timeout : float) (w : World) :
  consistent (fst (run calls (init port baudrate timeout, w))).
Proof. apply run_consistent, init_consistent. Qed.

(** X2.  No call clears [is_homed]: once [home] has succeeded, the
    controller stays homed through every later sequence of calls,
    [disconnect], [connect] and [emergency_stop] included. *)
Theorem is_homed_never_cleared (calls : list call) (st : RobotController * World) :
  is_homed (fst st) = true -> is_homed (fst (run calls st)) = true.
Proof.
  revert st. induction calls as [|c calls IH]; intros st H; [exact H|].
  apply IH, step_keeps_homed, H.
Qed.

(** X3.  After [disconnect], in a consistent state, calls other than
    [connect] change nothing: they write nothing, read nothing and leave the
    controller as it is. *)
Theorem no_io_after_disconnect (calls : list call)
    (self : RobotController) (w : World) :
  consistent self ->
  Forall (fun c => c <> Connect) calls ->
  run calls (disconnect self w) = disconnect self w.
Proof.
  intros Hcons Hcalls.
  pose proof (disconnect_offline self w Hcons) as Hoff.
  destruct (disconnect self w) as [self' w'].
  apply run_offline; [exact Hoff | left; exact Hcalls].
Qed.

(** X4.  A [with] block always ends with the controller off line; and when
    the port cannot be opened, the body runs on a controller that is not
    connected and the whole block leaves controller and world untouched. *)
Theorem with_block_releases_port (port : string) (body : list call) (w : World) :
  offline (fst (with_controller format_float parse_float fuel port body w)) /\
  (port_available w = false ->
   with_controller format_float parse_float fuel port body w =
     (init port 115200 1, w)).
Proof.
  unfold with_controller, __enter__, __exit__. split.
  - pose proof (connect_consistent (init port 115200 1) w (init_consistent _ _ _)) as H.
    destruct (connect (init port 115200 1) w) as [[ok robot] w1]. simpl in H.
    pose proof (run_consistent body (robot, w1) H) as H'.
    destruct (run body (robot, w1)) as [robot' w2]. simpl in H'.
    apply disconnect_offline, H'.
  - intros Hp. unfold connect. rewrite Hp.
    rewrite run_offline; [reflexivity | split; simpl; [reflexivity | discriminate] | right; exact Hp].
Qed.

End Sessions.

(** X2 on a homed controller that disconnects, connects again and stops. *)
Lemma is_homed_never_cleared_witness :
  is_homed (fst (homed_controller, moving_device)) = true /\
  is_homed (fst (run format_stub parse_stub 3 calls_with_reconnect
                     (homed_controller, moving_device))) = true.
Proof.
  split; [reflexivity|].
  apply (is_homed_never_cleared format_stub parse_stub 3 calls_with_reconnect
           (homed_controller, moving_device)).
  reflexivity.
Defined.

(** X3 on a homed controller that disconnects from a device with answers
    pending. *)
Lemma no_io_after_disconnect_witness :
  consistent homed_controller /\
  run format_stub parse_stub 3 calls_after_disconnect
      (disconnect homed_controller moving_device) =
    disconnect homed_controller moving_device.
Proof.
  assert (H : consistent homed_controller)
    by (split; simpl; intros _; [reflexivity | discriminate]).
  split; [exact H|].
  apply (no_io_after_disconnect format_stub parse_stub 3 calls_after_disconnect
           homed_controller moving_device H).
  unfold calls_after_disconnect. repeat constructor; discriminate.
Defined.

(** X5.  [pen_up], [pen_down] and [set_speed] return what the one answer
    to their command makes of [response and "OK" in response]: [None] when
    the controller is not connected or the read fails, the empty string when
    the read times out or the line is blank, and otherwise the boolean that
    says whether the line contains [OK].  Only the last is a boolean. *)
Theorem pen_and_speed_results (format_float : float -> string)
    (self : RobotController) (w : World) (speed : float) :
  let results := [fst (pen_up self w); fst (pen_down self w);
                  fst (set_speed format_float self speed w)] in
  (is_connected self = false -> Forall (fun r => r = VNone) results) /\
  (connected self ->
     match rx w with
     | [] => Forall (fun r => r = VStr EmptyString) results
     | None :: _ => Forall (fun r => r = VNone) results
     | Some answer :: _ =>
         Forall (fun r => r = if String.eqb (strip answer) EmptyString
                              then VStr (strip answer)
                              else VBool (contains "OK" (strip answer))) results
     end).
Proof.
  intros results. subst results. unfold pen_up, pen_down, set_speed. split.
  - intros H. unfold send_command. rewrite H. simpl. repeat constructor.
  - intros Hc. rewrite !(send_command_connected _ _ _ Hc).
    destruct (rx w) as [|[answer|] rest]; simpl; repeat constructor.
Qed.

(** X5 on a device whose next line is [OK], and on a silent one. *)
Lemma pen_and_speed_results_witness :
  fst (pen_up homed_controller moving_device) = VBool true /\
  fst (pen_down homed_controller
         {| port_available := true; rx := []; trace := [] |}) = VStr EmptyString.
Proof.
  assert (Hc : connected homed_controller) by (split; reflexivity).
  split.
  - pose proof (proj2 (pen_and_speed_results format_stub homed_controller
                         moving_device 300) Hc) as H.
    simpl in H. inversion H as [|? ? H1 _]. exact H1.
  - pose proof (proj2 (pen_and_speed_results format_stub homed_controller
                         {| port_available := true; rx := []; trace := [] |} 300) Hc) as H.
    simpl in H. inversion H as [|? ? _ H2]. inversion H2 as [|? ? H3 _]. exact H3.
Defined.

End CommandsFacts.

(** ** Parsing status and position *)

Module ParsingFacts.
Import Py Control Commands ControlFacts.

(** A separator that occurs in a string cuts it into at least two pieces. *)
Lemma split_go_two_pieces (sep : string) (s : string) :
  sep <> EmptyString ->
  forall cur : string,
    contains sep s = true ->
    exists a b rest, split_go sep 0 cur s = a :: b :: rest.
Proof.
  intros Hsep. induction s as [|c s IH]; intros cur H.
  - simpl in H. destruct sep; [congruence | discriminate].
  - cbn [split_go]. cbn [contains] in H.
    destruct (String.prefix sep (String c s)).
    + pose proof (split_go_not_nil sep s (String.length sep - 1) EmptyString) as Hn.
      destruct (split_go sep (String.length sep - 1) EmptyString s) as [|b rest];
        [congruence | eauto].
    + apply IH, H.
Qed.

Lemma index_second {A : Type} (a b : A) (rest : list A) (d : A) :
  index (a :: b :: rest) 1 = Ok (nth 1 (a :: b :: rest) d).
Proof. reflexivity. Qed.

(** The items of a status are read in order; the first that is not of the
    form [key:value] raises [ValueError]. *)
Lemma parse_status_items_outcome (items : list string) :
  forall m : Status,
    (Forall key_value items /\ exists st, for_each parse_status_item items m = Ok st) \/
    (Exists (fun item => ~ key_value item) items /\
     for_each parse_status_item items m = Exc ValueError).
Proof.
  induction items as [|item items IH]; intros m.
  - left. split; [constructor | eexists; reflexivity].
  - cbn [for_each]. unfold parse_status_item at 1 3.
    destruct (split ":" item) as [|key [|value [|extra more]]] eqn:E;
      try (right; split; [apply Exists_cons_hd; intros (k & v & Hkv); congruence
                         | reflexivity]).
    cbn [bind].
    destruct (IH (<[lower key := String.eqb value "1"]> m)) as [[Hall Hst] | [Hex Hst]].
    + left. split; [constructor; [exists key, value; exact E | exact Hall] | exact Hst].
    + right. split; [apply Exists_cons_tl, Hex | exact Hst].
Qed.

(** X6.  When the response contains [STATUS:], [get_status] reads the
    text after the first marker as comma-separated items.  It returns a
    status exactly when every item splits on [':'] into a key and a value,
    and raises [ValueError] exactly when some item does not; it raises
    nothing else ([split(...)[1]] is always in range). *)
Theorem parse_status_outcome (r : string) :
  has_marker "STATUS:" (Some r) = true ->
  (Forall key_value (status_items r) /\
   exists st : Status, parse_status (Some r) = Ok (Some st)) \/
  (Exists (fun item => ~ key_value item) (status_items r) /\
   parse_status (Some r) = Exc ValueError).
Proof.
  intros H. unfold parse_status, status_items. rewrite H.
  assert (Hc : contains "STATUS:" r = true).
  { unfold has_marker in H. apply andb_true_iff in H. tauto. }
  destruct (split_go_two_pieces "STATUS:" r ltac:(discriminate) EmptyString Hc)
    as (a & b & rest & Hs).
  change (split "STATUS:" r = a :: b :: rest) in Hs. rewrite !Hs.
  rewrite (index_second a b rest EmptyString). cbn [bind nth].
  destruct (parse_status_items_outcome (split "," b) ∅) as [[Hall [st Hst]] | [Hex Hst]].
  - left. split; [exact Hall|]. exists st. rewrite Hst. reflexivity.
  - right. split; [exact Hex|]. rewrite Hst. reflexivity.
Qed.

(** X6 on the status line of a homed, moving arm. *)
Lemma parse_status_outcome_witness :
  has_marker "STATUS:" (Some "STATUS:moving:1,homed:1") = true /\
  ((Forall key_value (status_items "STATUS:moving:1,homed:1") /\
    exists st : Status, parse_status (Some "STATUS:moving:1,homed:1") = Ok (Some st)) \/
   (Exists (fun item => ~ key_value item) (status_items "STATUS:moving:1,homed:1") /\
    parse_status (Some "STATUS:moving:1,homed:1") = Exc ValueError)).
Proof.
  split; [reflexivity|].
  apply (parse_status_outcome "STATUS:moving:1,homed:1"). reflexivity.
Defined.

(** With the marker present, [get_status] is the loop over the items. *)
Lemma parse_status_marker (r : string) :
  has_marker "STATUS:" (Some r) = true ->
  parse_status (Some r) =
    bind (for_each parse_status_item (status_items r) ∅) (fun status => Ok (Some status)).
Proof.
  intros H. unfold parse_status, status_items. rewrite H.
  assert (Hc : contains "STATUS:" r = true).
  { unfold has_marker in H. apply andb_true_iff in H. tauto. }
  destruct (split_go_two_pieces "STATUS:" r ltac:(discriminate) EmptyString Hc)
    as (a & b & rest & Hs).
  change (split "STATUS:" r = a :: b :: rest) in Hs. rewrite !Hs.
  reflexivity.
Qed.

Lemma lower_ascii_idempotent (c : Ascii.ascii) :
  lower_ascii (lower_ascii c) = lower_ascii c.
Proof.
  destruct c as [b0 b1 b2 b3 b4 b5 b6 b7].
  destruct b0, b1, b2, b3, b4, b5, b6, b7; reflexivity.
Qed.

Lemma lower_idempotent (s : string) : lower (lower s) = lower s.
Proof.
  induction s as [|c s IH]; [reflexivity|].
  simpl. rewrite lower_ascii_idempotent, IH. reflexivity.
Qed.

(** Every entry of the status that the loop builds was there before or
    comes from one of the items. *)
Lemma parse_status_items_entries (items : list string) :
  forall (m st : Status),
    for_each parse_status_item items m = Ok st ->
    forall (k : string) (b : bool),
      st !! k = Some b ->
      m !! k = Some b \/
      exists item key value,
        item ∈ items /\ split ":" item = [key; value] /\
        k = lower key /\ b = String.eqb value "1".
Proof.
  induction items as [|item items IH]; intros m st H k b Hk.
  - simpl in H. injection H as <-. left. exact Hk.
  - cbn [for_each] in H. unfold parse_status_item at 1 in H.
    destruct (split ":" item) as [|key [|value [|extra more]]] eqn:E;
      try discriminate H.
    cbn [bind] in H.
    destruct (IH _ _ H k b Hk) as [Hm | (item' & key' & value' & Hin & Hs & Hk' & Hb)].
    + apply lookup_insert_Some in Hm. destruct Hm as [[<- <-] | [_ Hm]].
      * right. exists item, key, value. repeat split; [left | exact E].
      * left. exact Hm.
    + right. exists item', key', value'. repeat split; try assumption.
      right. exact Hin.
Qed.

(** X7.  Every entry of a status that [get_status] returns comes from an
    item [key:value] of the response: its key is the lower-case form of
    [key], hence lower-case itself, and its flag is true exactly when
    [value] is the one character [1]. *)
Theorem status_entries_from_items (r : string) (st : Status) (k : string) (b : bool) :
  parse_status (Some r) = Ok (Some st) ->
  st !! k = Some b ->
  lower k = k /\
  exists item key value : string,
    item ∈ status_items r /\ split ":" item = [key; value] /\
    k = lower key /\ b = String.eqb value "1".
Proof.
  intros H Hk.
  assert (Hm : has_marker "STATUS:" (Some r) = true).
  { unfold parse_status in H. destruct (has_marker "STATUS:" (Some r));
      [reflexivity | discriminate]. }
  rewrite (parse_status_marker r Hm) in H.
  destruct (for_each parse_status_item (status_items r) ∅) as [st'|] eqn:E;
    [|discriminate].
  simpl in H. injection H as <-.
  destruct (parse_status_items_entries _ _ _ E k b Hk)
    as [Hempty | (item & key & value & Hin & Hs & -> & ->)].
  - rewrite lookup_empty in Hempty. discriminate.
  - split; [apply lower_idempotent|]. eauto 10.
Qed.

(** X7 on a response that spells its key in capitals. *)
Lemma status_entries_from_items_witness :
  parse_status (Some "STATUS:MOVING:0") = Ok (Some {[ "moving" := false ]}) /\
  lower "moving" = "moving" /\
  exists item key value : string,
    item ∈ status_items "STATUS:MOVING:0" /\ split ":" item = [key; value] /\
    "moving" = lower key /\ false = String.eqb value "1".
Proof.
  split; [reflexivity|].
  apply (status_entries_from_items "STATUS:MOVING:0" {[ "moving" := false ]}
           "moving" false); reflexivity.
Defined.

Section Position.

Variable parse_float : string -> option float.

Lemma parse_position_marker (r : string) :
  has_marker "POS:" (Some r) = true ->
  parse_position parse_float (Some r) =
    bind (for_each (fun coords c =>
                      match parse_float c with
                      | Some v => Ok (coords ++ [v])
                      | None => Exc ValueError
                      end) (position_fields r) [])
         (fun coords => Ok (Some coords)).
Proof.
  intros H. unfold parse_position, position_fields. rewrite H.
  assert (Hc : contains "POS:" r = true).
  { unfold has_marker in H. apply andb_true_iff in H. tauto. }
  destruct (split_go_two_pieces "POS:" r ltac:(discriminate) EmptyString Hc)
    as (a & b & rest & Hs).
  change (split "POS:" r = a :: b :: rest) in Hs. rewrite !Hs.
  reflexivity.
Qed.

Lemma parse_fields_outcome (fields : list string) :
  forall acc : list float,
    (exists vs, Forall2 (fun c v => parse_float c = Some v) fields vs /\
                for_each (fun coords c =>
                            match parse_float c with
                            | Some v => Ok (coords ++ [v])
                            | None => Exc ValueError
                            end) fields acc = Ok (acc ++ vs)) \/
    (Exists (fun c => parse_float c = None) fields /\
     for_each (fun coords c =>
                 match parse_float c with
                 | Some v => Ok (coords ++ [v])
                 | None => Exc ValueError
                 end) fields acc = Exc ValueError).
Proof.
  induction fields as [|c fields IH]; intros acc.
  - left. exists []. split; [constructor | rewrite app_nil_r; reflexivity].
  - cbn [for_each]. destruct (parse_float c) as [v|] eqn:E.
    + cbn [bind]. destruct (IH (acc ++ [v])) as [(vs & Hvs & Hr) | [Hex Hr]].
      * left. exists (v :: vs). split; [constructor; assumption|].
        rewrite Hr, <- app_assoc. reflexivity.
      * right. split; [apply Exists_cons_tl, Hex | exact Hr].
    + right. split; [apply Exists_cons_hd, E | reflexivity].
Qed.

(** X8.  When the response contains [POS:], [get_position] returns the
    tuple of the values of all comma-separated fields after the first
    marker, one per field and as many as there are (nothing makes them
    three), if [float] accepts every field; otherwise it raises
    [ValueError]. *)
Theorem parse_position_outcome (r : string) :
  has_marker "POS:" (Some r) = true ->
  (exists vs : list float,
      Forall2 (fun c v => parse_float c = Some v) (position_fields r) vs /\
      length vs = length (position_fields r) /\
      parse_position parse_float (Some r) = Ok (Some vs)) \/
  (Exists (fun c => parse_float c = None) (position_fields r) /\
   parse_position parse_float (Some r) = Exc ValueError).
Proof.
  intros H. rewrite (parse_position_marker r H).
  destruct (parse_fields_outcome (position_fields r) []) as [(vs & Hvs & Hr) | [Hex Hr]].
  - left. exists vs. split; [exact Hvs|]. split.
    + symmetry. eapply Forall2_length, Hvs.
    + rewrite Hr. reflexivity.
  - right. split; [exact Hex|]. rewrite Hr. reflexivity.
Qed.

End Position.

(** X8 on a response with two fields, read by a parser that knows the
    digits [1] and [2]. *)
Lemma parse_position_outcome_witness :
  has_marker "POS:" (Some "POS:1,2") = true /\
  ((exists vs : list float,
       Forall2 (fun c v => digit_parser c = Some v) (position_fields "POS:1,2") vs /\
       length vs = length (position_fields "POS:1,2") /\
       parse_position digit_parser (Some "POS:1,2") = Ok (Some vs)) \/
   (Exists (fun c => digit_parser c = None) (position_fields "POS:1,2") /\
    parse_position digit_parser (Some "POS:1,2") = Exc ValueError)).
Proof.
  split; [reflexivity|].
  apply (parse_position_outcome digit_parser "POS:1,2"). reflexivity.
Defined.

End ParsingFacts.

(** ** The order of floats *)

Module FloatOrderFacts.
Import Py PyFacts.
Local Open Scope float_scope.

Lemma SFleb_trans (a b c : spec_float) :
  SFleb a b = true -> SFleb b c = true -> SFleb a c = true.
Proof.
  unfold SFleb, SFcompare.
  destruct a as [sa|sa| |sa ma ea], b as [sb|sb| |sb mb eb], c as [sc|sc| |sc mc ec];
    try discriminate; try reflexivity;
    try (destruct sa, sb, sc; simpl; congruence).
  change (Pos.compare_cont Eq ma mb) with (ma ?= mb)%positive.
  change (Pos.compare_cont Eq mb mc) with (mb ?= mc)%positive.
  change (Pos.compare_cont Eq ma mc) with (ma ?= mc)%positive.
  destruct sa, sb, sc; try discriminate; try reflexivity;
    destruct (Z.compare_spec ea eb), (Z.compare_spec eb ec), (Z.compare_spec ea ec);
    try lia; try discriminate; try reflexivity;
    destruct (Pos.compare_spec ma mb), (Pos.compare_spec mb mc),
      (Pos.compare_spec ma mc);
    simpl; try lia; try discriminate; try reflexivity.
Qed.

Lemma leb_trans (a b c : float) :
  (a <=? b) = true -> (b <=? c) = true -> (a <=? c) = true.
Proof. rewrite !leb_spec. apply SFleb_trans. Qed.

Lemma leb_refl (a : float) : ~ is_nan a -> (a <=? a) = true.
Proof.
  unfold is_nan. rewrite leb_spec. unfold SFleb, SFcompare.
  destruct (Prim2SF a) as [s|s| |s m e]; intros H.
  - reflexivity.
  - destruct s; reflexivity.
  - congruence.
  - rewrite Z.compare_refl, Pos.compare_cont_refl. destruct s; reflexivity.
Qed.

Lemma ltb_leb (a b : float) : (a <? b) = true -> (a <=? b) = true.
Proof.
  rewrite ltb_spec, leb_spec. unfold SFltb, SFleb.
  destruct (SFcompare (Prim2SF a) (Prim2SF b)) as [[]|]; congruence.
Qed.

(** The smaller of two numbers, chosen as [min] does, is below both; the
    greater, chosen as [max] does, is above both. *)
Lemma min_step (m v : float) :
  ~ is_nan m -> ~ is_nan v ->
  ((if v <? m then v else m) <=? m) = true /\
  ((if v <? m then v else m) <=? v) = true.
Proof.
  intros Hm Hv. destruct (v <? m) eqn:E.
  - split; [apply ltb_leb, E | apply leb_refl, Hv].
  - split; [apply leb_refl, Hm | apply ltb_false_leb_true; assumption].
Qed.

Lemma max_step (m v : float) :
  ~ is_nan m -> ~ is_nan v ->
  (m <=? (if gtb v m then v else m)) = true /\
  (v <=? (if gtb v m then v else m)) = true.
Proof.
  intros Hm Hv. unfold gtb. destruct (m <? v) eqn:E.
  - split; [apply ltb_leb, E | apply leb_refl, Hv].
  - split; [apply leb_refl, Hm | apply ltb_false_leb_true; assumption].
Qed.

(** The loop of [min]: its result is one of the numbers and below all. *)
Lemma fold_min (l : list float) :
  forall a : float,
    Forall (fun v => ~ is_nan v) (a :: l) ->
    let r := fold_left (fun m v => if v <? m then v else m) l a in
    r ∈ a :: l /\ Forall (fun v => (r <=? v) = true) (a :: l).
Proof.
  induction l as [|v l IH]; intros a Hn r; subst r.
  - inversion Hn; subst. split; [left | repeat constructor; apply leb_refl; assumption].
  - inversion Hn as [|? ? Ha Hl]; subst. inversion Hl as [|? ? Hv Hl']; subst.
    destruct (min_step a v Ha Hv) as [H1 H2].
    assert (Hm : ~ is_nan (if v <? a then v else a)) by (destruct (v <? a); assumption).
    assert (Hn' : Forall (fun v => ~ is_nan v) ((if v <? a then v else a) :: l))
      by (constructor; assumption).
    destruct (IH _ Hn') as [Hin Hall].
    cbn [fold_left]. inversion Hall as [|? ? Hr Hrest]; subst.
    split.
    + apply elem_of_cons in Hin. destruct Hin as [-> | Hin].
      * destruct (v <? a); [right; left | left].
      * right; right; exact Hin.
    + constructor; [eapply leb_trans; eassumption|].
      constructor; [eapply leb_trans; eassumption | exact Hrest].
Qed.

(** The loop of [max]: its result is one of the numbers and above all. *)
Lemma fold_max (l : list float) :
  forall a : float,
    Forall (fun v => ~ is_nan v) (a :: l) ->
    let r := fold_left (fun m v => if gtb v m then v else m) l a in
    r ∈ a :: l /\ Forall (fun v => (v <=? r) = true) (a :: l).
Proof.
  induction l as [|v l IH]; intros a Hn r; subst r.
  - inversion Hn; subst. split; [left | repeat constructor; apply leb_refl; assumption].
  - inversion Hn as [|? ? Ha Hl]; subst. inversion Hl as [|? ? Hv Hl']; subst.
    destruct (max_step a v Ha Hv) as [H1 H2].
    assert (Hm : ~ is_nan (if gtb v a then v else a)) by (destruct (gtb v a); assumption).
    assert (Hn' : Forall (fun v => ~ is_nan v) ((if gtb v a then v else a) :: l))
      by (constructor; assumption).
    destruct (IH _ Hn') as [Hin Hall].
    cbn [fold_left]. inversion Hall as [|? ? Hr Hrest]; subst.
    split.
    + apply elem_of_cons in Hin. destruct Hin as [-> | Hin].
      * destruct (gtb v a); [right; left | left].
      * right; right; exact Hin.
    + constructor; [eapply leb_trans; eassumption|].
      constructor; [eapply leb_trans; eassumption | exact Hrest].
Qed.

End FloatOrderFacts.

(** ** Bounds, the shape of planned paths and the built-in characters *)

Module CharactersFacts.
Import Py PyFacts Planner PlannerFacts Characters FloatOrderFacts.
Local Open Scope float_scope.

(** *** [get_path_bounds] *)

Lemma coordinates_numbers (f : PathPoint -> float) (path : list PathPoint) :
  Forall (fun p => number (f p)) path ->
  Forall (fun v => ~ is_nan v) (map f path).
Proof.
  intros H. exact (proj2 (List.Forall_map f (fun v => ~ is_nan v) path) H).
Qed.

Lemma coordinates_bounded (f : PathPoint -> float) (P : float -> Prop)
    (path : list PathPoint) :
  Forall P (map f path) -> Forall (fun p => P (f p)) path.
Proof.
  intros H. exact (proj1 (List.Forall_map f P path) H).
Qed.

(** X9.  The bounds of a path that is not empty and has no NaN coordinate
    are returned without an exception, contain every point of the path
    ([min_x <= x <= max_x] and [min_y <= y <= max_y]) and are tight: each of
    the four is a coordinate of some point of the path. *)
Theorem get_path_bounds_tight (path : list PathPoint) :
  path <> [] ->
  Forall (fun p => number (x p) /\ number (y p)) path ->
  exists a b c d : float,
    get_path_bounds path = Ok (a, b, c, d) /\
    Forall (fun p => (a <=? x p) = true /\ (x p <=? b) = true /\
                     (c <=? y p) = true /\ (y p <=? d) = true) path /\
    a ∈ map x path /\ b ∈ map x path /\ c ∈ map y path /\ d ∈ map y path.
Proof.
  intros Hne Hn. destruct path as [|p path]; [congruence|].
  apply Forall_and in Hn. destruct Hn as [Hx Hy].
  apply (coordinates_numbers x) in Hx. apply (coordinates_numbers y) in Hy.
  cbn [map] in Hx, Hy.
  destruct (fold_min _ _ Hx) as [Ha1 Ha2]. destruct (fold_max _ _ Hx) as [Hb1 Hb2].
  destruct (fold_min _ _ Hy) as [Hc1 Hc2]. destruct (fold_max _ _ Hy) as [Hd1 Hd2].
  eexists _, _, _, _. split; [reflexivity|].
  split; [|cbn [map]; auto].
  apply (coordinates_bounded x _ (p :: path)) in Ha2, Hb2.
  apply (coordinates_bounded y _ (p :: path)) in Hc2, Hd2.
  rewrite Forall_forall in Ha2, Hb2, Hc2, Hd2. apply Forall_forall.
  intros q Hq. auto.
Qed.

(** X9 on the segment from [(0, 0)] to [(55, 0)]. *)
Lemma get_path_bounds_tight_witness :
  segment_0_55 <> [] /\
  exists a b c d : float,
    get_path_bounds segment_0_55 = Ok (a, b, c, d) /\
    Forall (fun p => (a <=? x p) = true /\ (x p <=? b) = true /\
                     (c <=? y p) = true /\ (y p <=? d) = true) segment_0_55 /\
    a ∈ map x segment_0_55 /\ b ∈ map x segment_0_55 /\
    c ∈ map y segment_0_55 /\ d ∈ map y segment_0_55.
Proof.
  assert (H : segment_0_55 <> []) by discriminate.
  split; [exact H|].
  apply (get_path_bounds_tight segment_0_55 H).
  repeat constructor; unfold is_nan; vm_compute; discriminate.
Defined.

(** *** The shape of a planned path *)

Lemma filter_pen_down_scaled (scale offset_x offset_y : float) (stroke : Stroke) :
  List.filter pen_down (map (scaled scale offset_x offset_y true) stroke) =
  map (scaled scale offset_x offset_y true) stroke.
Proof.
  induction stroke as [|v stroke IH]; [reflexivity|].
  simpl. rewrite IH. reflexivity.
Qed.

Lemma stroke_points_shape (scale offset_x offset_y : float) (stroke : Stroke) :
  List.filter pen_down (stroke_points scale offset_x offset_y stroke) =
    map (scaled scale offset_x offset_y true) stroke /\
  length (stroke_points scale offset_x offset_y stroke) =
    (length stroke + (if is_drawn stroke then 2 else 0))%nat.
Proof.
  destruct stroke as [|v stroke]; [split; reflexivity|].
  unfold stroke_points. split.
  - cbn [List.filter scaled pen_down]. rewrite List.filter_app, filter_pen_down_scaled.
    simpl. rewrite app_nil_r. reflexivity.
  - cbn [length is_drawn]. rewrite length_app, length_map. simpl. lia.
Qed.

(** X10.  In the path that [plan_path] returns, the pen-down points are
    exactly the scaled and offset vertices of all strokes in order; every
    stroke that has a vertex adds two pen-up points, so the length is the
    number of vertices plus twice the number of such strokes; and the path
    is empty exactly when every stroke is. *)
Theorem plan_path_shape (self : CalligraphyPlanner) (strokes : list Stroke)
    (scale offset_x offset_y : float) :
  List.filter pen_down (snd (plan_path self strokes scale offset_x offset_y)) =
    map (scaled scale offset_x offset_y true) (concat strokes) /\
  length (snd (plan_path self strokes scale offset_x offset_y)) =
    (length (concat strokes) + 2 * length (List.filter is_drawn strokes))%nat /\
  (snd (plan_path self strokes scale offset_x offset_y) = [] <->
   Forall (fun stroke => stroke = []) strokes).
Proof.
  unfold plan_path. cbn [snd]. rewrite fold_plan_stroke. cbn [app].
  unfold plan_path_spec.
  induction strokes as [|stroke strokes (IH1 & IH2 & IH3)].
  - repeat split; auto.
  - destruct (stroke_points_shape scale offset_x offset_y stroke) as [H1 H2].
    cbn [map concat]. split; [|split].
    + rewrite List.filter_app, H1, IH1, map_app. reflexivity.
    + rewrite !length_app, H2, IH2. cbn [List.filter].
      destruct stroke; cbn [is_drawn length]; lia.
    + split.
      * intros H. apply app_eq_nil in H. destruct H as [Hs Hrest].
        constructor; [|apply IH3, Hrest].
        destruct stroke as [|v stroke]; [reflexivity | discriminate Hs].
      * intros H. inversion H as [|? ? -> Hrest]; subst.
        simpl. apply IH3, Hrest.
Qed.

End CharactersFacts.

(** ** More on the interpolation *)

Module InterpolationFacts.
Import Py Planner PlannerFacts Characters.
Local Open Scope float_scope.
Local Open Scope py_scope.

Lemma interpolate_spec_two (step_size : float) (p q : PathPoint) (rest : list PathPoint) :
  interpolate_spec step_size (p :: q :: rest) =
    let* inserted := between step_size p q in
    let* tail := interpolate_spec step_size (q :: rest) in
    Ok (p :: inserted ++ tail).
Proof. reflexivity. Qed.

(** Whatever is inserted between two points is pen-down. *)
Lemma between_pen_down (step_size : float) (p q : PathPoint) (inserted : list PathPoint) :
  between step_size p q = Ok inserted ->
  Forall (fun r => pen_down r = true) inserted.
Proof.
  unfold between. destruct (num_steps_of step_size p q) as [[n|e]|]; simpl; intros H;
    try discriminate; injection H as <-.
  - apply intermediate_points.
  - constructor.
Qed.

(** Nothing is inserted next to a pen-up point. *)
Lemma between_pen_up (step_size : float) (p q : PathPoint) :
  pen_down p = false \/ pen_down q = false -> between step_size p q = Ok [].
Proof.
  intros H. unfold between, num_steps_of.
  destruct H as [-> | ->]; [reflexivity|].
  rewrite andb_false_r. reflexivity.
Qed.

Lemma filter_pen_down_points (l : list PathPoint) :
  Forall (fun r => pen_down r = true) l -> List.filter pen_is_up l = [].
Proof.
  induction 1 as [|r l Hr _ IH]; [reflexivity|].
  simpl. unfold pen_is_up at 1. rewrite Hr. exact IH.
Qed.

Lemma interpolate_spec_keeps (step_size : float) (path : list PathPoint) :
  forall out : list PathPoint,
    interpolate_spec step_size path = Ok out ->
    List.filter pen_is_up out = List.filter pen_is_up path /\ head out = head path.
Proof.
  induction path as [|p rest IH]; intros out H.
  - injection H as <-. split; reflexivity.
  - destruct rest as [|q rest].
    + injection H as <-. split; reflexivity.
    + rewrite interpolate_spec_two in H.
      destruct (between step_size p q) as [inserted|] eqn:E; [|discriminate].
      destruct (interpolate_spec step_size (q :: rest)) as [tail|]; [|discriminate].
      injection H as <-. destruct (IH tail eq_refl) as [Hf _].
      split; [|reflexivity].
      change (List.filter pen_is_up (p :: inserted ++ tail)) with
        (List.filter pen_is_up ([p] ++ inserted ++ tail)).
      change (List.filter pen_is_up (p :: q :: rest)) with
        (List.filter pen_is_up ([p] ++ q :: rest)).
      rewrite !List.filter_app, Hf.
      rewrite (filter_pen_down_points inserted (between_pen_down _ _ _ _ E)).
      reflexivity.
Qed.

(** X11.  Whenever [interpolate_path] returns, its result holds the
    points of the path in their order (the path is a subsequence of it, so
    it is at least as long), starts with the first and ends with the last
    point of the path, and has the same pen-up points in the same order:
    what it adds is pen-down, and it drops nothing. *)
Theorem interpolate_path_keeps_points
    (path out : list PathPoint) (step_size : float) :
  interpolate_path path step_size = Ok out ->
  path `sublist_of` out /\
  (length path <= length out)%nat /\
  head out = head path /\
  last out = last path /\
  List.filter pen_is_up out = List.filter pen_is_up path.
Proof.
  intros H. destruct path as [|p path]; [discriminate H|].
  rewrite interpolate_path_spec in H by discriminate.
  destruct (interpolate_spec_preserves _ _ _ H) as [Hsub Hlast].
  destruct (interpolate_spec_keeps _ _ _ H) as [Hup Hhead].
  auto using sublist_length.
Qed.

(** X11 on the path planned for one stroke of 100 mm. *)
Lemma interpolate_path_keeps_points_witness :
  exists out : list PathPoint,
    interpolate_path line_path 5 = Ok out /\
    line_path `sublist_of` out /\
    (length line_path <= length out)%nat /\
    head out = head line_path /\
    last out = last line_path /\
    List.filter pen_is_up out =
      List.filter pen_is_up line_path.
Proof.
  eexists. split; [vm_compute; reflexivity|].
  apply (interpolate_path_keeps_points
           line_path _ 5).
  vm_compute. reflexivity.
Defined.

(** X13.  [interpolate_path] is not idempotent: on the segment from
    [(0, 0)] to [(55, 0)] with step size 5 its result has two adjacent
    points farther apart than the step size, and a second application with
    the same step size inserts another point. *)
Theorem interpolate_path_not_idempotent :
  exists (path once twice : list PathPoint) (step_size : float),
    interpolate_path path step_size = Ok once /\
    interpolate_path once step_size = Ok twice /\
    (length once < length twice)%nat.
Proof.
  exists segment_0_55. eexists. eexists. exists 5.
  split; [vm_compute; reflexivity|].
  split; [vm_compute; reflexivity|].
  vm_compute. lia.
Qed.

End InterpolationFacts.

(** ** The built-in characters and the example that writes them *)

Module WriteCharacterFacts.
Import Py Planner PlannerFacts Control ControlFacts Commands Characters WriteCharacter.
Local Open Scope float_scope.

(** Close a goal [Forall reachable l] on a list of given points. *)
Ltac all_reachable :=
  repeat (apply List.Forall_cons; [vm_compute; reflexivity|]); apply List.Forall_nil.

(** X15.  For every character, every point of the path that
    [create_simple_character] returns passes [is_reachable] of the default
    solver; when the path is not empty it has been stored in
    [current_path], and its interpolation with the example's step size of
    5 mm succeeds and stays reachable point by point; when it is empty (an
    unknown character) the planner is left as it was. *)
Theorem built_in_characters_reachable (self : CalligraphyPlanner) (character : string) :
  Forall reachable (snd (create_simple_character self character)) /\
  (snd (create_simple_character self character) = [] ->
   fst (create_simple_character self character) = self) /\
  (snd (create_simple_character self character) <> [] ->
   current_path (fst (create_simple_character self character)) =
     snd (create_simple_character self character) /\
   exists out : list PathPoint,
     interpolate_path (snd (create_simple_character self character)) 5 = Ok out /\
     Forall reachable out).
Proof.
  unfold create_simple_character.
  destruct (String.eqb character char_one);
    [|destruct (String.eqb character char_ten);
      [|destruct (String.eqb character char_tree)]].
  - split; [cbn; all_reachable|]. split; [discriminate|]. intros _.
    split; [reflexivity|]. eexists. split; [vm_compute; reflexivity | all_reachable].
  - split; [cbn; all_reachable|]. split; [discriminate|]. intros _.
    split; [reflexivity|]. eexists. split; [vm_compute; reflexivity | all_reachable].
  - split; [cbn; all_reachable|]. split; [discriminate|]. intros _.
    split; [reflexivity|]. eexists. split; [vm_compute; reflexivity | all_reachable].
  - split; [constructor|]. split; [reflexivity | intros H; contradiction H; reflexivity].
Qed.

Lemma built_in_unknown_keeps (planner : CalligraphyPlanner) (character : string) :
  snd (create_simple_character planner character) = [] ->
  fst (create_simple_character planner character) = planner.
Proof.
  unfold create_simple_character.
  destruct (String.eqb character char_one);
    [|destruct (String.eqb character char_ten);
      [|destruct (String.eqb character char_tree)]];
    try discriminate.
  reflexivity.
Qed.

(** The planning stage of [write_character] never raises. *)
Lemma planned_character_interpolates (planner : CalligraphyPlanner) (character : string) :
  snd (create_simple_character planner character) = [] \/
  exists out bounds,
    interpolate_path (snd (create_simple_character planner character)) 5 = Ok out /\
    get_path_bounds out = Ok bounds.
Proof.
  unfold create_simple_character.
  destruct (String.eqb character char_one);
    [|destruct (String.eqb character char_ten);
      [|destruct (String.eqb character char_tree)]];
    try (right; eexists; eexists;
         split; [vm_compute; reflexivity | vm_compute; reflexivity]).
  left. reflexivity.
Qed.

Section Drawing.

Variable format_float : float -> string.
Variable fuel : nat.

Lemma send_command_writes (self : RobotController) (command : string) (w : World) :
  writes (snd (send_command self command w)) = writes w \/
  writes (snd (send_command self command w)) = writes w ++ [line command].
Proof.
  unfold writes.
  destruct (send_command_trace self command w) as [-> | ->]; [left; reflexivity|].
  right. rewrite omap_app. reflexivity.
Qed.

Lemma pen_writes (robot : RobotController) (point : PathPoint) (w : World) :
  let w1 := if Planner.pen_down point then snd (Commands.pen_down robot w)
            else snd (Commands.pen_up robot w) in
  exists added, writes w1 = writes w ++ added /\ Forall pen_line added.
Proof.
  unfold Commands.pen_down, Commands.pen_up.
  destruct (Planner.pen_down point).
  - destruct (send_command_writes robot "PEN:DOWN" w) as [H | H];
      destruct (send_command robot "PEN:DOWN" w) as [r w1]; simpl in *.
    + exists []. rewrite app_nil_r. split; [exact H | constructor].
    + exists [line "PEN:DOWN"]. split; [exact H|]. constructor; [right; reflexivity | constructor].
  - destruct (send_command_writes robot "PEN:UP" w) as [H | H];
      destruct (send_command robot "PEN:UP" w) as [r w1]; simpl in *.
    + exists []. rewrite app_nil_r. split; [exact H | constructor].
    + exists [line "PEN:UP"]. split; [exact H|]. constructor; [left; reflexivity | constructor].
Qed.

Lemma draw_path_not_homed (robot : RobotController) (path : list PathPoint) :
  is_homed robot = false ->
  forall w : World,
    exists w' added,
      draw_path format_float fuel robot path w = (Returns tt, w') /\
      writes w' = writes w ++ added /\ Forall pen_line added.
Proof.
  intros Hh. induction path as [|point path IH]; intros w.
  - exists w, []. rewrite app_nil_r. repeat split. constructor.
  - cbn [draw_path]. unfold draw_point.
    destruct (pen_writes robot point w) as (a1 & Hw1 & Ha1).
    cbv zeta in Hw1.
    set (w1 := if Planner.pen_down point then snd (Commands.pen_down robot w)
               else snd (Commands.pen_up robot w)) in *.
    unfold move_to. rewrite Hh. cbn [negb].
    destruct (IH w1) as (w' & a2 & Hd & Hw' & Ha2).
    exists w', (a1 ++ a2). split; [exact Hd|]. split.
    + rewrite Hw', Hw1, <- app_assoc. reflexivity.
    + apply Forall_app. split; assumption.
Qed.

Lemma draw_path_offline (robot : RobotController) (path : list PathPoint) :
  is_connected robot = false ->
  forall w : World, draw_path format_float fuel robot path w = (Returns tt, w).
Proof.
  intros Hc.
  assert (Hs : forall command w, send_command robot command w = (None, w))
    by (intros; unfold send_command; rewrite Hc; reflexivity).
  induction path as [|point path IH]; intros w; [reflexivity|].
  cbn [draw_path]. unfold draw_point, Commands.pen_down, Commands.pen_up, move_to.
  rewrite !Hs. cbn [snd].
  destruct (Planner.pen_down point), (is_homed robot); cbn [negb];
    rewrite ?Hs; cbn [has_marker]; apply IH.
Qed.

(** X16.  [write_character] drops what [move_to] returns, so on a robot
    that is not homed it still returns normally, having written a PEN
    command for every point of the path and no MOVE at all: the pen is
    moved up and down while the arm stands still.  On a robot that is not
    connected it returns normally and touches nothing; and for an unknown
    character it returns before any call on the robot. *)
Theorem write_character_without_motion (robot : RobotController)
    (planner : CalligraphyPlanner) (character : string) (w : World) :
  (is_homed robot = false ->
   exists planner' w' added,
     write_character format_float fuel robot planner character w =
       (Returns tt, planner', w') /\
     writes w' = writes w ++ added /\ Forall pen_line added) /\
  (is_connected robot = false ->
   exists planner',
     write_character format_float fuel robot planner character w =
       (Returns tt, planner', w)) /\
  (snd (create_simple_character planner character) = [] ->
   write_character format_float fuel robot planner character w =
     (Returns tt, planner, w)).
Proof.
  pose proof (built_in_unknown_keeps planner character) as Hunknown.
  pose proof (planned_character_interpolates planner character) as Hplan.
  unfold write_character.
  destruct (create_simple_character planner character) as [planner' path].
  cbn [snd fst] in *. split; [|split].
  - intros Hh. destruct path as [|p path].
    + exists planner', w, []. rewrite app_nil_r. repeat split. constructor.
    + destruct Hplan as [Hnil | (out & bounds & -> & ->)]; [discriminate|].
      destruct (draw_path_not_homed robot out Hh w) as (w1 & a1 & -> & Hw1 & Ha1).
      destruct (send_command_writes robot "PEN:UP" w1) as [H | H].
      * exists planner', (snd (Commands.pen_up robot w1)), a1.
        split; [reflexivity|]. split; [|exact Ha1].
        unfold Commands.pen_up. destruct (send_command robot "PEN:UP" w1).
        simpl in *. congruence.
      * exists planner', (snd (Commands.pen_up robot w1)), (a1 ++ [line "PEN:UP"]).
        split; [reflexivity|]. split.
        -- unfold Commands.pen_up. destruct (send_command robot "PEN:UP" w1).
           simpl in *. rewrite H, Hw1, <- app_assoc. reflexivity.
        -- apply Forall_app. split; [exact Ha1|].
           constructor; [left; reflexivity | constructor].
  - intros Hc. exists planner'. destruct path as [|p path]; [reflexivity|].
    destruct Hplan as [Hnil | (out & bounds & -> & ->)]; [discriminate|].
    rewrite (draw_path_offline robot out Hc w).
    unfold Commands.pen_up, send_command. rewrite Hc. reflexivity.
  - intros ->. rewrite (Hunknown eq_refl). reflexivity.
Qed.

End Drawing.

(** X16 on a robot that has connected and not homed, asked to write the
    character for one. *)
Lemma write_character_without_motion_witness :
  is_homed (snd (fst (connect fresh_controller obliging_device))) = false /\
  exists planner' w' added,
    write_character format_stub 3 (snd (fst (connect fresh_controller obliging_device)))
                    (Planner.init 200 200) char_one
                    (snd (connect fresh_controller obliging_device)) =
      (Returns tt, planner', w') /\
    writes w' = writes (snd (connect fresh_controller obliging_device)) ++ added /\
    Forall pen_line added.
Proof.
  split; [reflexivity|].
  apply (write_character_without_motion format_stub 3
           (snd (fst (connect fresh_controller obliging_device)))
           (Planner.init 200 200) char_one
           (snd (connect fresh_controller obliging_device))).
  reflexivity.
Defined.

End WriteCharacterFacts.

(** ** The workspace of the solver *)

Module WorkspaceFacts.
Import Py PyFacts Kinematics KinematicsFacts.
Local Open Scope float_scope.

Lemma SFcompare_opp (a b : spec_float) :
  SFcompare (SFopp a) (SFopp b) = option_map CompOpp (SFcompare a b).
Proof.
  destruct a as [sa|sa| |sa ma ea], b as [sb|sb| |sb mb eb]; simpl;
    try reflexivity;
    try (destruct sa; reflexivity);
    try (destruct sb; reflexivity);
    try (destruct sa, sb; reflexivity).
  destruct sa, sb; simpl; try reflexivity;
    destruct (ea ?= eb)%Z; simpl; try reflexivity;
    destruct (Pos.compare_cont Eq ma mb); reflexivity.
Qed.

(** Negating both sides turns a comparison round. *)
Lemma ltb_opp (a b : float) : (- a <? - b) = (b <? a).
Proof.
  rewrite !ltb_spec, !opp_spec. unfold SFltb.
  rewrite SFcompare_opp, (SFcompare_swap (Prim2SF a) (Prim2SF b)).
  reflexivity.
Qed.

Lemma opp_opp (v : float) : - - v = v.
Proof.
  apply Prim2SF_inj. rewrite !opp_spec.
  destruct (Prim2SF v) as [s|s| |s m e]; simpl; rewrite ?negb_involutive; reflexivity.
Qed.

Lemma pow2_opp (v : float) : pow2 (- v) = pow2 v.
Proof.
  unfold pow2. apply Prim2SF_inj. rewrite !mul_spec, opp_spec.
  destruct (Prim2SF v) as [s|s| |s m e]; try reflexivity; destruct s; reflexivity.
Qed.

(** X17.  The workspace of a solver built by [__init__] is symmetric
    about the y axis: [is_reachable] gives the same answer for [(-x, y)] as
    for [(x, y)]. *)
Theorem is_reachable_mirror (link1_length link2_length width x y : float) :
  is_reachable (init link1_length link2_length width) (- x) y =
  is_reachable (init link1_length link2_length width) x y.
Proof.
  unfold is_reachable, gtb, distance. cbn [min_x max_x min_y max_y init].
  rewrite pow2_opp.
  change (-300) with (- (300)).
  rewrite (ltb_opp x 300).
  rewrite <- (ltb_opp (- x) 300), opp_opp.
  rewrite (orb_comm (300 <? x)). reflexivity.
Qed.

End WorkspaceFacts.

(** ** The exchange of lines *)

Module ProtocolFacts.
Import Py Control ControlFacts Commands.

Lemma follows_refl (w : World) : follows w w.
Proof.
  split; [reflexivity|]. exists [], []. rewrite app_nil_r. repeat split. simpl. lia.
Qed.

Lemma follows_trans (w1 w2 w3 : World) :
  follows w1 w2 -> follows w2 w3 -> follows w1 w3.
Proof.
  intros (Hp1 & t1 & a1 & Hr1 & Ht1 & Hl1) (Hp2 & t2 & a2 & Hr2 & Ht2 & Hl2).
  split; [congruence|]. exists (t1 ++ t2), (a1 ++ a2). repeat split.
  - rewrite Hr1, Hr2, app_assoc. reflexivity.
  - rewrite Ht2, Ht1, app_assoc. reflexivity.
  - rewrite omap_app, !length_app. lia.
Qed.

(** Events that are not reads: opening, closing and sleeping. *)
Lemma follows_log (e : event) (w : World) : follows w (log e w).
Proof.
  split; [reflexivity|]. exists [], [e]. repeat split. simpl. lia.
Qed.

Lemma send_command_follows (self : RobotController) (command : string) (w : World) :
  follows w (snd (send_command self command w)).
Proof.
  unfold send_command.
  destruct (is_connected self); [|apply follows_refl].
  destruct (serial self) as [[[|]]|]; try apply follows_refl.
  cbv zeta. cbn [rx log].
  destruct (rx w) as [|[answer|] rest] eqn:E; cbn [snd].
  - apply follows_log.
  - split; [reflexivity|]. exists [Some answer], [Write (command +:+ newline)].
    cbn. rewrite E. repeat split. lia.
  - split; [reflexivity|]. exists [None], [Write (command +:+ newline)].
    cbn. rewrite E. repeat split. lia.
Qed.

Lemma get_status_follows (self : RobotController) (w : World) :
  follows w (snd (get_status self w)).
Proof.
  unfold get_status.
  pose proof (send_command_follows self "STATUS" w) as H.
  destruct (send_command self "STATUS" w). exact H.
Qed.

Lemma wait_until_idle_follows (self : RobotController) (fuel : nat) :
  forall w : World, follows w (snd (wait_until_idle fuel self w)).
Proof.
  induction fuel as [|fuel IH]; intros w; [apply follows_refl|].
  cbn [wait_until_idle].
  pose proof (get_status_follows self w) as H.
  destruct (get_status self w) as [[status|e] w1]; cbn [snd] in *; [|exact H].
  destruct (not_moving status); [exact H|].
  eapply follows_trans; [exact H|].
  eapply follows_trans; [apply follows_log | apply IH].
Qed.

Section Sessions.

Variable format_float : float -> string.
Variable parse_float : string -> option float.
Variable fuel : nat.

Lemma move_to_follows (self : RobotController) (x y z : float) (w : World) :
  follows w (snd (move_to format_float fuel self x y z w)).
Proof.
  unfold move_to. destruct (is_homed self); cbn [negb]; [|apply follows_refl].
  pose proof (send_command_follows self (move_command format_float x y z) w) as H.
  destruct (send_command self (move_command format_float x y z) w) as [response w1].
  cbn [snd] in H. destruct (has_marker "OK" response); [|exact H].
  eapply follows_trans; [exact H | apply wait_until_idle_follows].
Qed.

Lemma step_follows (c : call) (st : RobotController * World) :
  follows (snd st) (snd (step format_float parse_float fuel c st)).
Proof.
  destruct st as [self w]. destruct c; cbn [step snd].
  - unfold connect. destruct (port_available w); cbn [snd]; [|apply follows_refl].
    eapply follows_trans; apply follows_log.
  - unfold disconnect. destruct (serial self) as [[[|]]|]; cbn [snd];
      try apply follows_refl. apply follows_log.
  - unfold home. pose proof (send_command_follows self "HOME" w) as H.
    destruct (send_command self "HOME" w) as [response w1].
    destruct (has_marker "OK" response); exact H.
  - apply move_to_follows.
  - unfold pen_up. pose proof (send_command_follows self "PEN:UP" w) as H.
    destruct (send_command self "PEN:UP" w). exact H.
  - unfold pen_down. pose proof (send_command_follows self "PEN:DOWN" w) as H.
    destruct (send_command self "PEN:DOWN" w). exact H.
  - unfold set_speed.
    pose proof (send_command_follows self ("SPEED:" +:+ format_float speed) w) as H.
    destruct (send_command self ("SPEED:" +:+ format_float speed) w). exact H.
  - apply get_status_follows.
  - unfold get_position. pose proof (send_command_follows self "POS" w) as H.
    destruct (send_command self "POS" w). exact H.
  - apply send_command_follows.
Qed.

(** X18.  Through every sequence of calls the trace only grows, the
    answers are taken from the front of the pending ones in their order,
    and no more answers are taken than lines were written: the controller
    never reads without having sent a command first. *)
Theorem answers_follow_commands (calls : list call) (st : RobotController * World) :
  follows (snd st) (snd (run format_float parse_float fuel calls st)).
Proof.
  revert st. induction calls as [|c calls IH]; intros st; [apply follows_refl|].
  change (run format_float parse_float fuel (c :: calls) st) with
    (run format_float parse_float fuel calls (step format_float parse_float fuel c st)).
  eapply follows_trans; [apply step_follows | apply IH].
Qed.

(** X19.  When the device accepts a MOVE and then says nothing more,
    [move_to] never returns: every read of its wait loop times out, the
    empty response gives no status, and the loop has no bound of its own;
    whatever fuel it is given, it is still waiting when the fuel is used up. *)
Theorem move_to_waits_forever_on_silent_device
    (self : RobotController) (x y z : float) (w : World) (ack : string) :
  is_homed self = true ->
  connected self ->
  rx w = [Some ack] ->
  has_marker "OK" (Some (strip ack)) = true ->
  fst (move_to format_float fuel self x y z w) = OutOfFuel.
Proof.
  intros Hh Hc Hrx Hack. unfold move_to. rewrite Hh. cbn [negb].
  rewrite (send_command_connected _ _ _ Hc). cbn [rx log]. rewrite Hrx, Hack.
  apply wait_until_idle_silent_device; [exact Hc | reflexivity].
Qed.

End Sessions.

(** X19 on a homed controller with fuel for a thousand polls. *)
Lemma move_to_waits_forever_on_silent_device_witness :
  is_homed homed_controller = true /\
  fst (move_to format_stub 1000 homed_controller 100 200 10 device_gone_silent) =
    OutOfFuel.
Proof.
  split; [reflexivity|].
  apply (move_to_waits_forever_on_silent_device format_stub 1000 homed_controller
           100 200 10 device_gone_silent "OK").
  - reflexivity.
  - split; reflexivity.
  - reflexivity.
  - reflexivity.
Defined.

End ProtocolFacts.

(** ** The solver over the platform's squares *)

Module PlatformKinematicsFacts.
Import Py PyFacts Power Kinematics KinematicsFacts PlatformKinematics.
Local Open Scope float_scope.
Local Open Scope py_scope.

(** Outside the rectangle [is_reachable] answers before it computes
    anything. *)
Lemma is_reachable_outside_rectangle (P : Powers) (self : InverseKinematics) (x y : float) :
  outside_rectangle self x y = true -> is_reachable P self x y = Ok false.
Proof.
  unfold outside_rectangle, is_reachable.
  destruct (x <? min_x self), (gtb x (max_x self)); simpl; try reflexivity.
  intros ->. reflexivity.
Qed.

(** Inside, its answer is the test of the annulus on the computed
    distance, and it raises when the distance does. *)
Lemma is_reachable_inside_rectangle (P : Powers) (self : InverseKinematics) (x y : float) :
  outside_rectangle self x y = false ->
  is_reachable P self x y =
    let* d := distance P x y in Ok (in_computed_annulus self d).
Proof.
  unfold outside_rectangle, is_reachable.
  destruct (x <? min_x self), (gtb x (max_x self)); simpl; try discriminate.
  intros ->. reflexivity.
Qed.

(** What a positive answer of [is_reachable] tells. *)
Lemma is_reachable_true (P : Powers) (self : InverseKinematics) (x y : float) :
  is_reachable P self x y = Ok true ->
  outside_rectangle self x y = false /\
  exists d : float, distance P x y = Ok d /\ in_computed_annulus self d = true.
Proof.
  intros H. destruct (outside_rectangle self x y) eqn:E.
  - rewrite (is_reachable_outside_rectangle P self x y E) in H. discriminate H.
  - split; [reflexivity|].
    rewrite (is_reachable_inside_rectangle P self x y E) in H.
    destruct (distance P x y) as [d|e]; [|discriminate H].
    exists d. split; [reflexivity|]. simpl in H. congruence.
Qed.

(** [solve] gives up at its first test when [is_reachable] says no. *)
Lemma solve_unreachable (P : Powers) (M : Libm) (self : InverseKinematics) (x y : float) :
  is_reachable P self x y = Ok false -> solve P M self x y = Ok None.
Proof. unfold solve. intros ->. reflexivity. Qed.

(** When [solve] returns, [is_reachable] has said yes. *)
Lemma solve_returns_reachable (P : Powers) (M : Libm) (self : InverseKinematics)
    (x y : float) (r : option (float * float)) :
  solve P M self x y = Ok r -> r <> None -> is_reachable P self x y = Ok true.
Proof.
  unfold solve. destruct (is_reachable P self x y) as [[|]|e]; simpl.
  - reflexivity.
  - intros H Hr. injection H as <-. contradiction Hr. reflexivity.
  - discriminate.
Qed.

(** After [is_reachable], the second distance test of [solve] never fires:
    what is left is the test on the law-of-cosines value. *)
Lemma solve_reachable (P : Powers) (M : Libm) (self : InverseKinematics) (x y d : float) :
  is_reachable P self x y = Ok true ->
  distance P x y = Ok d ->
  solve P M self x y =
    let* c := cos_elbow P self d in
    if (c <? -1) || (1 <? c) then Ok None
    else Ok (Some (angles M self x y d c)).
Proof.
  intros H Hd. unfold solve. rewrite H. cbn [bind negb].
  destruct (is_reachable_true P self x y H) as (_ & d' & Hd' & Ha).
  rewrite Hd in Hd'. injection Hd' as <-. rewrite Hd. cbn [bind].
  unfold in_computed_annulus in Ha. apply andb_prop in Ha. destruct Ha as [H5 H6].
  unfold gtb.
  rewrite (leb_true_ltb_false _ _ H6), (leb_true_ltb_false _ _ H5).
  reflexivity.
Qed.

(** On numbers the test of the rectangle is the test of the four limits
    set by [__init__]. *)
Lemma outside_rectangle_numbers (a b c x y : float) :
  ~ is_nan x -> ~ is_nan y ->
  (outside_rectangle (init a b c) x y = false <-> in_rectangle (init a b c) x y).
Proof.
  intros Hx Hy.
  destruct (init_limits_numbers a b c) as (Nx0 & Nx1 & Ny0 & Ny1).
  unfold outside_rectangle, in_rectangle, gtb. split.
  - intros H.
    apply orb_false_elim in H. destruct H as [H H4].
    apply orb_false_elim in H. destruct H as [H H3].
    apply orb_false_elim in H. destruct H as [H1 H2].
    repeat split; auto using ltb_false_leb_true.
  - intros (H1 & H2 & H3 & H4).
    rewrite (leb_true_ltb_false _ _ H1), (leb_true_ltb_false _ _ H2),
      (leb_true_ltb_false _ _ H3), (leb_true_ltb_false _ _ H4).
    reflexivity.
Qed.

(** C3, as the code has it.  [solve] and [is_reachable] test the rectangle
    and the annulus on floats, with the distance as computed.  For every
    solver, every target and every platform: when [is_reachable] returns
    [False], [solve] returns [None]; a target outside the rectangle, or
    whose computed distance [sqrt(x**2 + y**2)] is not within
    [[abs(l1 - l2), l1 + l2]], makes [is_reachable] return [False]; and
    whenever [solve] returns joint angles, the target is inside the
    rectangle and its computed distance is within those bounds.  For a
    solver built by [__init__] and coordinates that are numbers, being
    inside the rectangle is [min_x <= x <= max_x] and
    [min_y <= y <= max_y]. *)
Theorem solve_agrees_with_is_reachable_as_computed
    (P : Powers) (M : Libm) (self : InverseKinematics) (x y : float) :
  (is_reachable P self x y = Ok false -> solve P M self x y = Ok None) /\
  (outside_rectangle self x y = true -> is_reachable P self x y = Ok false) /\
  (forall d : float,
     distance P x y = Ok d -> in_computed_annulus self d = false ->
     is_reachable P self x y = Ok false) /\
  (forall a : float * float,
     solve P M self x y = Ok (Some a) ->
     is_reachable P self x y = Ok true /\
     outside_rectangle self x y = false /\
     exists d : float, distance P x y = Ok d /\ in_computed_annulus self d = true) /\
  (forall link1_length link2_length width : float,
     self = init link1_length link2_length width ->
     ~ is_nan x -> ~ is_nan y ->
     (outside_rectangle self x y = false <-> in_rectangle self x y)).
Proof.
  split; [apply solve_unreachable|].
  split; [apply is_reachable_outside_rectangle|].
  split; [|split].
  - intros d Hd Ha. destruct (outside_rectangle self x y) eqn:E.
    + apply is_reachable_outside_rectangle, E.
    + rewrite (is_reachable_inside_rectangle P self x y E), Hd. simpl. rewrite Ha.
      reflexivity.
  - intros a Ha.
    assert (H : is_reachable P self x y = Ok true).
    { apply (solve_returns_reachable P M self x y (Some a) Ha). discriminate. }
    split; [exact H|]. apply is_reachable_true, H.
  - intros a b c -> Hx Hy. apply outside_rectangle_numbers; assumption.
Qed.

(** C3 at two targets of the default solver: [(0, 500)], above the
    rectangle, and [(0, 200)], for which [solve] returns angles. *)
Lemma solve_agrees_with_is_reachable_as_computed_witness :
  (outside_rectangle default 0 500 = true /\
   is_reachable correctly_rounded default 0 500 = Ok false /\
   solve correctly_rounded identity_libm default 0 500 = Ok None) /\
  (is_reachable correctly_rounded default 0 200 = Ok true /\
   outside_rectangle default 0 200 = false /\
   exists d : float,
     distance correctly_rounded 0 200 = Ok d /\ in_computed_annulus default d = true).
Proof.
  split.
  - assert (H : outside_rectangle default 0 500 = true) by (vm_compute; reflexivity).
    pose proof (solve_agrees_with_is_reachable_as_computed
                  correctly_rounded identity_libm default 0 500) as (H1 & H2 & _).
    split; [exact H|]. split; [exact (H2 H) | exact (H1 (H2 H))].
  - pose proof (solve_agrees_with_is_reachable_as_computed
                  correctly_rounded identity_libm default 0 200) as (_ & _ & _ & H4 & _).
    apply (H4 (angles identity_libm default 0 200 200 0.5)).
    vm_compute. reflexivity.
Defined.

(** C3, as stated, fails at the edge of the annulus.  The target
    [(2^-20, 400)] lies inside the rectangle and outside the annulus of the
    default solver: its distance from the origin exceeds [l1 + l2 = 400].
    Its squares are exact, their sum is rounded to [160000], and the
    computed distance is [400]: [is_reachable] returns [True] and [solve]
    returns angles, with every C library. *)
Lemma solve_accepts_target_outside_annulus :
  max_reach default = 400 /\
  (exists qx qy : QArith_base.Q,
     Exact.exact (fst beside_full_reach) = Some qx /\
     Exact.exact (snd beside_full_reach) = Some qy /\
     QArith_base.Qlt
       (QArith_base.Qmult (QArith_base.inject_Z 400) (QArith_base.inject_Z 400))
       (QArith_base.Qplus (QArith_base.Qmult qx qx) (QArith_base.Qmult qy qy))) /\
  in_annulus default (fst beside_full_reach) (snd beside_full_reach) = false /\
  in_rectangle default (fst beside_full_reach) (snd beside_full_reach) /\
  is_reachable correctly_rounded default
    (fst beside_full_reach) (snd beside_full_reach) = Ok true /\
  (forall M : Libm,
     solve correctly_rounded M default (fst beside_full_reach) (snd beside_full_reach) =
       Ok (Some (angles M default (fst beside_full_reach) (snd beside_full_reach) 400 (-1)))).
Proof.
  split; [vm_compute; reflexivity|].
  split; [eexists; eexists; split; [vm_compute; reflexivity|];
          split; [vm_compute; reflexivity | vm_compute; reflexivity]|].
  split; [vm_compute; reflexivity|].
  split; [unfold in_rectangle; vm_compute; auto|].
  split; [vm_compute; reflexivity|].
  intros M. vm_compute. reflexivity.
Qed.

(** C6, as the code has it.  [solve] does not clamp the law-of-cosines
    value: for every target that passes [is_reachable], [solve] returns
    [None] exactly when the value as computed is below [-1.0] or above
    [1.0], by however little, and otherwise it returns the angles computed
    from the arccos of that very value; when the square of a link length
    raises, so does [solve]. *)
Theorem solve_tests_unclamped_cos_elbow
    (P : Powers) (M : Libm) (self : InverseKinematics) (x y d : float) :
  is_reachable P self x y = Ok true ->
  distance P x y = Ok d ->
  (forall c : float,
     cos_elbow P self d = Ok c ->
     (solve P M self x y = Ok None <-> (c <? -1) = true \/ (1 <? c) = true) /\
     ((c <? -1) = false -> (1 <? c) = false ->
      solve P M self x y = Ok (Some (angles M self x y d c)))) /\
  (forall e : exn, cos_elbow P self d = Exc e -> solve P M self x y = Exc e).
Proof.
  intros H Hd. rewrite (solve_reachable P M self x y d H Hd). split.
  - intros c ->. cbn [bind].
    destruct (c <? -1), (1 <? c); simpl;
      split; try (intros; reflexivity); try discriminate;
      split; intros; intuition discriminate.
  - intros e ->. reflexivity.
Qed.

(** C6 at the target [(0, 200)] of the default solver: the value is
    [0.5], and the angles come from its arccos. *)
Lemma solve_tests_unclamped_cos_elbow_witness :
  is_reachable correctly_rounded default 0 200 = Ok true /\
  distance correctly_rounded 0 200 = Ok 200 /\
  cos_elbow correctly_rounded default 200 = Ok 0.5 /\
  solve correctly_rounded identity_libm default 0 200 =
    Ok (Some (angles identity_libm default 0 200 200 0.5)).
Proof.
  assert (H : is_reachable correctly_rounded default 0 200 = Ok true)
    by (vm_compute; reflexivity).
  assert (Hd : distance correctly_rounded 0 200 = Ok 200) by (vm_compute; reflexivity).
  assert (Hc : cos_elbow correctly_rounded default 200 = Ok 0.5) by (vm_compute; reflexivity).
  split; [exact H|]. split; [exact Hd|]. split; [exact Hc|].
  apply (proj1 (solve_tests_unclamped_cos_elbow
                  correctly_rounded identity_libm default 0 200 200 H Hd) 0.5 Hc);
    vm_compute; reflexivity.
Defined.

(** C6, as stated, fails.  For an arm with links of 50.3 mm and 150 mm and
    the target straight ahead at 200.3 mm, which [is_reachable] accepts,
    the law-of-cosines value is the float next below [-1]: it leaves
    [[-1, 1]] by one unit in the last place, the least amount a float can.
    [solve] neither clamps it nor tolerates it: it returns [None], with
    every C library.  The squares of 50.3, 150 and 200.3 are the ones
    Python returns. *)
Lemma solve_gives_up_one_ulp_below_minus_one :
  is_reachable correctly_rounded short_long_arm 0 full_reach = Ok true /\
  distance correctly_rounded 0 full_reach = Ok full_reach /\
  cos_elbow correctly_rounded short_long_arm full_reach = Ok (next_down (-1)) /\
  (forall M : Libm, solve correctly_rounded M short_long_arm 0 full_reach = Ok None).
Proof.
  split; [vm_compute; reflexivity|].
  split; [vm_compute; reflexivity|].
  split; [vm_compute; reflexivity|].
  intros M. vm_compute. reflexivity.
Qed.

End PlatformKinematicsFacts.

(** ** [interpolate_path] over the platform's squares *)

Module PlatformPlannerFacts.
Import Py Power Planner PlannerFacts Characters PlatformPlanner.
Local Open Scope float_scope.
Local Open Scope py_scope.


(** One round of the loop appends the current point and what belongs
    between it and the next one. *)
Lemma interpolate_segment_between (P : Powers) (step_size : float)
    (pre : list PathPoint) (p q : PathPoint) (rest acc : list PathPoint) :
  interpolate_segment P (pre ++ p :: q :: rest) step_size acc (Z.of_nat (length pre)) =
  bind (between P step_size p q) (fun inserted => Ok (acc ++ p :: inserted)).
Proof.
  unfold interpolate_segment.
  rewrite index_middle, index_after_middle. cbn [bind].
  unfold between, num_steps_of, point_distance.
  destruct (pen_down p), (pen_down q); cbn [andb bind]; try reflexivity.
  destruct (float_pow2 P (x q - x p)) as [a|e]; cbn [bind]; [|reflexivity].
  destruct (float_pow2 P (y q - y p)) as [b|e]; cbn [bind]; [|reflexivity].
  destruct (gtb (sqrt (a + b)) step_size); cbn [bind]; [|reflexivity].
  destruct (int_ceil (sqrt (a + b) / step_size)) as [n|e]; cbn [bind]; [|reflexivity].
  unfold intermediate, range, interp_point.
  rewrite fold_append_map, <- app_assoc. reflexivity.
Qed.

Lemma interpolate_spec_step (P : Powers) (step_size : float) (p q : PathPoint)
    (rest : list PathPoint) :
  interpolate_spec P step_size (p :: q :: rest) =
    let* inserted := between P step_size p q in
    let* tail := interpolate_spec P step_size (q :: rest) in
    Ok (p :: inserted ++ tail).
Proof. reflexivity. Qed.

Lemma interpolate_loop_between (P : Powers) (step_size : float) (rest : list PathPoint) :
  forall (pre : list PathPoint) (p : PathPoint) (acc : list PathPoint),
    bind (for_each (interpolate_segment P (pre ++ p :: rest) step_size)
                   (seqZ (Z.of_nat (length pre)) (Z.of_nat (length rest))) acc)
         (fun interpolated => Ok (interpolated ++ [List.last rest p])) =
    bind (interpolate_spec P step_size (p :: rest)) (fun out => Ok (acc ++ out)).
Proof.
  induction rest as [|q rest IH]; intros pre p acc; [reflexivity|].
  rewrite seqZ_cons by (simpl; lia).
  replace (Z.pred (Z.of_nat (length (q :: rest)))) with (Z.of_nat (length rest))
    by (simpl; lia).
  cbn [for_each]. rewrite interpolate_segment_between, interpolate_spec_step.
  destruct (between P step_size p q) as [inserted|e]; [|reflexivity].
  cbn [bind]. rewrite List_last_cons.
  specialize (IH (pre ++ [p]) q (acc ++ p :: inserted)).
  rewrite <- app_assoc in IH. cbn [app] in IH.
  replace (Z.of_nat (length (pre ++ [p]))) with (Z.succ (Z.of_nat (length pre))) in IH
    by (rewrite length_app; simpl; lia).
  rewrite IH.
  destruct (interpolate_spec P step_size (q :: rest)) as [tail|e]; [|reflexivity].
  cbn [bind]. rewrite <- app_assoc. reflexivity.
Qed.

(** On a path that is not empty the loop of [interpolate_path] computes the
    interpolation worded above, exceptions included. *)
Lemma interpolate_path_is_spec (P : Powers) (path : list PathPoint) (step_size : float) :
  path <> [] -> interpolate_path P path step_size = interpolate_spec P step_size path.
Proof.
  destruct path as [|p rest]; [congruence|]. intros _.
  unfold interpolate_path, range.
  rewrite index_last.
  replace (Z.of_nat (length (p :: rest)) - 1 - 0)%Z with (Z.of_nat (length rest))
    by (simpl; lia).
  transitivity (bind (interpolate_spec P step_size (p :: rest))
                     (fun out => Ok ([] ++ out))).
  - exact (interpolate_loop_between P step_size rest [] p []).
  - destruct (interpolate_spec P step_size (p :: rest)); reflexivity.
Qed.

(** Nothing is inserted next to a pen-up point, and nothing is computed. *)
Lemma nothing_beside_pen_up (P : Powers) (step_size : float) (p q : PathPoint) :
  pen_down p && pen_down q = false -> between P step_size p q = Ok [].
Proof. intros H. unfold between, num_steps_of. rewrite H. reflexivity. Qed.




(** *** Paths that are left as they are *)



(** *** Interpolating a planned path *)

(** A path is interpolated piece by piece wherever two adjacent points
    have nothing inserted between them. *)
Lemma interpolate_spec_app (P : Powers) (step_size : float) (l1 : list PathPoint) :
  forall l2 : list PathPoint,
    (forall p q, last l1 = Some p -> head l2 = Some q ->
                 between P step_size p q = Ok []) ->
    interpolate_spec P step_size (l1 ++ l2) =
      let* a := interpolate_spec P step_size l1 in
      let* b := interpolate_spec P step_size l2 in
      Ok (a ++ b).
Proof.
  induction l1 as [|p l1 IH]; intros l2 Hb.
  - simpl. destruct (interpolate_spec P step_size l2); reflexivity.
  - destruct l1 as [|p' l1].
    + destruct l2 as [|q l2]; [reflexivity|].
      change ([p] ++ q :: l2) with (p :: q :: l2).
      rewrite interpolate_spec_step, (Hb p q eq_refl eq_refl). simpl.
      destruct (interpolate_spec P step_size (q :: l2)); reflexivity.
    + change ((p :: p' :: l1) ++ l2) with (p :: p' :: (l1 ++ l2)).
      rewrite !interpolate_spec_step.
      change (p' :: l1 ++ l2) with ((p' :: l1) ++ l2).
      rewrite (IH l2) by (intros a b Ha; apply Hb; rewrite last_cons_cons; exact Ha).
      destruct (between P step_size p p') as [inserted|]; [|reflexivity].
      cbn [bind].
      destruct (interpolate_spec P step_size (p' :: l1)) as [t1|]; [|reflexivity].
      cbn [bind].
      destruct (interpolate_spec P step_size l2) as [t2|]; [|reflexivity].
      cbn [bind]. simpl. rewrite app_assoc. reflexivity.
Qed.

Lemma plan_path_spec_nil (strokes : list Stroke) (scale offset_x offset_y : float) :
  plan_path_spec strokes scale offset_x offset_y = [] <->
  Forall (fun stroke => stroke = []) strokes.
Proof.
  unfold plan_path_spec. induction strokes as [|stroke strokes IH].
  - split; [constructor | reflexivity].
  - cbn [map concat]. split.
    + intros H. apply app_eq_nil in H. destruct H as [Hs Hrest].
      constructor; [|apply IH, Hrest].
      destruct stroke as [|v stroke]; [reflexivity | discriminate Hs].
    + intros H. inversion H as [|? ? -> Hrest]; subst. apply IH, Hrest.
Qed.

Lemma last_stroke_points (scale offset_x offset_y : float) (stroke : Stroke)
    (p : PathPoint) :
  last (stroke_points scale offset_x offset_y stroke) = Some p -> pen_down p = false.
Proof.
  destruct stroke as [|v stroke]; [discriminate|].
  unfold stroke_points.
  rewrite last_cons, last_snoc. intros H. injection H as <-. reflexivity.
Qed.

(** The block of a stroke is interpolated between its two pen-up points. *)
Lemma interpolate_stroke_spec (P : Powers) (step_size scale offset_x offset_y : float)
    (stroke : Stroke) :
  interpolate_spec P step_size (stroke_points scale offset_x offset_y stroke) =
  interpolate_stroke P step_size scale offset_x offset_y stroke.
Proof.
  destruct stroke as [|v stroke]; [reflexivity|].
  unfold stroke_points, interpolate_stroke.
  set (up := scaled scale offset_x offset_y false v).
  set (up' := scaled scale offset_x offset_y false (List.last (v :: stroke) v)).
  set (downs := map (scaled scale offset_x offset_y true) (v :: stroke)).
  change (up :: downs ++ [up']) with ([up] ++ (downs ++ [up'])).
  rewrite interpolate_spec_app
    by (intros p q Hp _; injection Hp as <-; apply nothing_beside_pen_up; reflexivity).
  rewrite interpolate_spec_app
    by (intros p q _ Hq; injection Hq as <-; apply nothing_beside_pen_up;
        apply andb_false_r).
  cbn [interpolate_spec bind].
  destruct (interpolate_spec P step_size downs) as [inner|]; reflexivity.
Qed.

Lemma interpolate_blocks (P : Powers) (step_size scale offset_x offset_y : float)
    (strokes : list Stroke) :
  interpolate_spec P step_size (plan_path_spec strokes scale offset_x offset_y) =
  concat_all (map (interpolate_stroke P step_size scale offset_x offset_y) strokes).
Proof.
  unfold plan_path_spec. induction strokes as [|stroke strokes IH]; [reflexivity|].
  cbn [map concat concat_all].
  rewrite interpolate_spec_app.
  - rewrite interpolate_stroke_spec, IH. reflexivity.
  - intros p q Hp _. apply nothing_beside_pen_up.
    rewrite (last_stroke_points _ _ _ _ _ Hp). reflexivity.
Qed.

(** X14.  Interpolating a planned path works stroke by stroke: when some
    stroke has a vertex, the result is the concatenation, in stroke order,
    of each stroke's pen-up lead-in, the interpolation of its pen-down
    points alone, and its pen-up lead-out, so that nothing is ever inserted
    next to a pen-up point or between two strokes, and the call raises
    exactly when the interpolation of some stroke does; when no stroke has
    a vertex the planned path is empty and [interpolate_path] raises
    [IndexError]. *)
Theorem interpolate_planned_path
    (P : Powers) (self : CalligraphyPlanner) (strokes : list Stroke)
    (scale offset_x offset_y step_size : float) :
  (Forall (fun stroke => stroke = []) strokes ->
   interpolate_path P (snd (plan_path self strokes scale offset_x offset_y)) step_size =
     Exc IndexError) /\
  (Exists (fun stroke => stroke <> []) strokes ->
   interpolate_path P (snd (plan_path self strokes scale offset_x offset_y)) step_size =
     concat_all (map (interpolate_stroke P step_size scale offset_x offset_y) strokes)).
Proof.
  unfold plan_path. cbn [snd]. rewrite fold_plan_stroke. cbn [app]. split.
  - intros H. apply (plan_path_spec_nil strokes scale offset_x offset_y) in H.
    rewrite H. reflexivity.
  - intros H. rewrite interpolate_path_is_spec; [apply interpolate_blocks|].
    intros Hnil. apply plan_path_spec_nil in Hnil.
    apply Exists_exists in H. destruct H as (stroke & Hin & Hne).
    rewrite Forall_forall in Hnil. auto.
Qed.

(** X14 on a cross of two strokes, an empty stroke between them. *)
Lemma interpolate_planned_path_witness :
  interpolate_path correctly_rounded
    (snd (plan_path (init 200 200)
            [[(100, 50); (100, 150)]; []; [(50, 100); (150, 100)]] 1 0 200)) 5 =
  concat_all (map (interpolate_stroke correctly_rounded 5 1 0 200)
                  [[(100, 50); (100, 150)]; []; [(50, 100); (150, 100)]]).
Proof.
  apply (interpolate_planned_path correctly_rounded (init 200 200)
           [[(100, 50); (100, 150)]; []; [(50, 100); (150, 100)]] 1 0 200 5).
  apply Exists_cons_hd. discriminate.
Defined.

End PlatformPlannerFacts.

(** ** The two readings of the squares *)

Module SquaresFacts.
Import Py Power Planner.
Local Open Scope float_scope.
Local Open Scope py_scope.

Lemma for_each_ext {A S : Type} (f g : S -> A -> py S) (l : list A) :
  (forall s a, f s a = g s a) -> forall s : S, for_each f l s = for_each g l s.
Proof.
  intros H. induction l as [|a l IH]; intros s; [reflexivity|].
  cbn [for_each]. rewrite H. destruct (g s a); [apply IH | reflexivity].
Qed.

(** On a platform whose float power returns the product, [is_reachable]
    over the platform's squares is [is_reachable] with correctly rounded
    squares. *)
Lemma is_reachable_products (P : Powers) (self : Kinematics.InverseKinematics)
    (x y : float) :
  returns_products P ->
  PlatformKinematics.is_reachable P self x y = Ok (Kinematics.is_reachable self x y).
Proof.
  intros H. unfold PlatformKinematics.is_reachable, Kinematics.is_reachable,
    PlatformKinematics.distance, Kinematics.distance.
  rewrite !H. cbn [bind].
  destruct (_ || _); [reflexivity|]. destruct (_ || _); reflexivity.
Qed.

(** And likewise for [interpolate_path]. *)
Lemma interpolate_path_products (P : Powers) (path : list PathPoint) (step_size : float) :
  returns_products P ->
  PlatformPlanner.interpolate_path P path step_size = interpolate_path path step_size.
Proof.
  intros H. unfold PlatformPlanner.interpolate_path, interpolate_path.
  rewrite (for_each_ext (PlatformPlanner.interpolate_segment P path step_size)
                        (interpolate_segment path step_size)); [reflexivity|].
  intros acc i. unfold PlatformPlanner.interpolate_segment, interpolate_segment.
  destruct (index path i) as [current|]; [|reflexivity].
  destruct (index path (i + 1)) as [next_point|]; [|reflexivity].
  cbn [bind]. rewrite !H. reflexivity.
Qed.

End SquaresFacts.
